(** * Tablet aliases and tablet types of [go/vt/topo/topoproto/tablet.go]

  A shallow embedding of the utility functions over [topodata.TabletAlias],
  [topodata.Tablet] and [topodata.TabletType], followed by the properties
  the specification states about them.

  Go strings are byte sequences: they are modelled by [string], whose
  characters are the 256 byte values.  A Go pointer that may be nil is an
  [option]; a run-time panic (nil dereference, index out of range) is the
  [Panic] outcome of the [exec] monad. *)

From Stdlib Require Import ZArith Ascii String.
From stdpp Require Import base tactics option list gmap strings sorting.

(** ** The Go run time: pointers, panics, bytes *)

Module Go.

(** A pointer to [A], nil being [None]. *)
Abbreviation ptr A := (option A) (only parsing).

(** The outcome of code that may panic. *)
Inductive exec (A : Type) : Type :=
| Done (a : A)
| Panic.
Global Arguments Done {A} a.
Global Arguments Panic {A}.

Global Instance exec_ret : MRet exec := fun _ a => Done a.
Global Instance exec_bind : MBind exec := fun _ _ f m =>
  match m with
  | Done a => f a
  | Panic => Panic
  end.

(** [*p] *)
Definition deref {A} (p : ptr A) : exec A :=
  match p with
  | Some a => Done a
  | None => Panic
  end.

(** [s[i]] on a slice *)
Definition index {A} (s : list A) (i : nat) : exec A :=
  match s !! i with
  | Some a => Done a
  | None => Panic
  end.

(** The numeric value of a byte. *)
Definition byte (c : ascii) : Z := Z.of_N (N_of_ascii c).

(** The byte of a numeric value below 256. *)
Definition chr (z : Z) : ascii := ascii_of_N (Z.to_N z).

(** [lo <= c && c <= hi] on bytes *)
Definition between (lo hi c : ascii) : bool :=
  (byte lo <=? byte c)%Z && (byte c <=? byte hi)%Z.

(** [len(s) == 0] *)
Definition isEmpty (s : string) : bool :=
  match s with
  | EmptyString => true
  | String _ _ => false
  end.

Fixpoint all (p : ascii → bool) (s : string) : bool :=
  match s with
  | EmptyString => true
  | String c s' => p c && all p s'
  end.

Fixpoint mapBytes (f : ascii → ascii) (s : string) : string :=
  match s with
  | EmptyString => EmptyString
  | String c s' => String (f c) (mapBytes f s')
  end.

(** [n] copies of the byte [c] *)
Fixpoint repeatByte (c : ascii) (n : nat) : string :=
  match n with
  | O => EmptyString
  | S n' => String c (repeatByte c n')
  end.

(** The double quote, byte 34. *)
Definition dquote : string := String (chr 34) EmptyString.

(** [haystack] contains [needle] as a substring. *)
Definition Contains (haystack needle : string) : Prop :=
  ∃ before after, haystack = before +:+ needle +:+ after.

End Go.
Import Go.

(** ** Library functions whose tables are outside the repository

  [strings.ToUpper] and [strings.ToLower] take a byte-wise path on ASCII
  strings and otherwise map [unicode.ToUpper] / [unicode.ToLower] over the
  runes; [strconv.Quote] escapes by the Unicode printability tables.  The
  Unicode parts are parameters. *)

Class GoUnicode := {
  (** [strings.Map(unicode.ToUpper, s)] *)
  Map_unicode_ToUpper : string → string;
  (** [strings.Map(unicode.ToLower, s)] *)
  Map_unicode_ToLower : string → string;
  (** [strconv.Quote(s)] *)
  strconv_Quote : string → string;
}.

Module strings.
Section strings.
Context {unicode : GoUnicode}.

(** [c < utf8.RuneSelf] for every byte of [s] *)
Definition isASCII (s : string) : bool :=
  all (λ c, (byte c <? 128)%Z) s.

Definition upperByte (c : ascii) : ascii :=
  if between "a" "z" c then chr (byte c - (byte "a" - byte "A")) else c.

Definition lowerByte (c : ascii) : ascii :=
  if between "A" "Z" c then chr (byte c + (byte "a" - byte "A")) else c.

(** [strings.ToUpper]: ASCII strings are converted byte by byte (a string
    with no lower-case letter is returned as it is, which the byte-wise
    conversion also yields). *)
Definition ToUpper (s : string) : string :=
  if isASCII s then mapBytes upperByte s else Map_unicode_ToUpper s.

(** [strings.ToLower] *)
Definition ToLower (s : string) : string :=
  if isASCII s then mapBytes lowerByte s else Map_unicode_ToLower s.

(** [strings.Split(s, sep)] for a one-byte separator: the pieces of [s]
    between the occurrences of [sep], one more than there are
    occurrences. *)
Fixpoint Split_go (sep : ascii) (cur : string) (s : string) : list string :=
  match s with
  | EmptyString => [String.rev cur]
  | String c s' =>
      if Ascii.eqb c sep then String.rev cur :: Split_go sep EmptyString s'
      else Split_go sep (String c cur) s'
  end.

Definition Split (s : string) (sep : ascii) : list string :=
  Split_go sep EmptyString s.

End strings.
End strings.

(** ** Errors *)

Module errors.

(** [strconv.ErrSyntax] and [strconv.ErrRange] *)
Inductive numErr := ErrSyntax | ErrRange.

Inductive error :=
(** the error of [fmt.Errorf] with no wrapping verb *)
| errorString (msg : string)
(** [*strconv.NumError] *)
| NumError (Func Num : string) (Err : numErr)
(** [vterrors.Wrap(cause, msg)] and [vterrors.Wrapf] *)
| wrapping (cause : error) (msg : string).

Definition numErr_Error (e : numErr) : string :=
  match e with
  | ErrSyntax => "invalid syntax"
  | ErrRange => "value out of range"
  end.

(** [err.Error()] *)
Fixpoint Error {unicode : GoUnicode} (e : error) : string :=
  match e with
  | errorString msg => msg
  | NumError Func Num Err =>
      "strconv." +:+ Func +:+ ": " +:+ "parsing " +:+ strconv_Quote Num
        +:+ ": " +:+ numErr_Error Err
  | wrapping cause msg => msg +:+ ": " +:+ Error cause
  end.

(** [vterrors.Wrap]: nil stays nil. *)
Definition Wrap (err : option error) (message : string) : option error :=
  match err with
  | None => None
  | Some e => Some (wrapping e message)
  end.

(** [errors.Unwrap] iterated: the innermost cause. *)
Fixpoint RootCause (e : error) : error :=
  match e with
  | wrapping cause _ => RootCause cause
  | _ => e
  end.

End errors.
Import errors.

(** ** [strconv.ParseUint] in base 10 *)

Module strconv.
Local Open Scope Z_scope.

Definition maxUint64 : Z := 2 ^ 64 - 1.

Definition isDigit (c : ascii) : bool := between "0" "9" c.

(** The loop of [ParseUint] over the bytes of [s], [n] being the number
    read so far; [uint64] arithmetic wraps modulo [2^64]. *)
Fixpoint ParseUint_loop (cutoff maxVal : Z) (s : string) (n : Z) : Z + numErr :=
  match s with
  | EmptyString => inl n
  | String c s' =>
      if isDigit c then
        let d := byte c - byte "0" in
        if 10 <=? d then inr ErrSyntax
        else if cutoff <=? n then inr ErrRange
        else
          let n := (n * 10) mod 2 ^ 64 in
          let n1 := (n + d) mod 2 ^ 64 in
          if (n1 <? n) || (maxVal <? n1) then inr ErrRange
          else ParseUint_loop cutoff maxVal s' n1
      else inr ErrSyntax
  end.

(** [strconv.ParseUint(s, 10, bitSize)] for [0 < bitSize <= 64] *)
Definition ParseUint (s : string) (bitSize : Z) : Z * option error :=
  if isEmpty s then (0, Some (NumError "ParseUint" s ErrSyntax))
  else
    let cutoff := maxUint64 / 10 + 1 in
    let maxVal := 2 ^ bitSize - 1 in
    match ParseUint_loop cutoff maxVal s 0 with
    | inl n => (n, None)
    | inr ErrRange => (maxVal, Some (NumError "ParseUint" s ErrRange))
    | inr ErrSyntax => (0, Some (NumError "ParseUint" s ErrSyntax))
    end.

End strconv.

(** ** [fmt]: the verb [%0<wid>d] on unsigned integers *)

Module fmt.
Local Open Scope Z_scope.

(** The decimal digits of [u]: the loop of [fmtInteger], which writes
    [u mod 10] in front of what it has and divides by ten until [u < 10]. *)
Fixpoint digits_go (fuel : nat) (u : Z) (acc : string) : string :=
  match fuel with
  | O => acc
  | S fuel' =>
      if u <? 10 then String (chr (byte "0" + u)) acc
      else digits_go fuel' (u / 10) (String (chr (byte "0" + u mod 10)) acc)
  end.

(** Twenty digits hold every [uint64]. *)
Definition digits (u : Z) : string := digits_go 20 u EmptyString.

(** [fmt.Sprintf("%0<wid>d", u)] for an unsigned [u]: the digits, padded
    on the left with zeros up to [wid] bytes. *)
Definition Sprintf_0d (wid : nat) (u : Z) : string :=
  let ds := digits u in
  repeatByte "0" (wid - String.length ds) +:+ ds.

End fmt.

(** ** [regexp]: the alias pattern *)

Module regexp.

(** The class [[-_.a-zA-Z0-9]] *)
Definition isCellChar (c : ascii) : bool :=
  Ascii.eqb c "-" || Ascii.eqb c "_" || Ascii.eqb c "."
  || between "a" "z" c || between "A" "Z" c || between "0" "9" c.

(** The anchored pattern [^([-_.a-zA-Z0-9]+)-([0-9]+)$], matched the way a
    leftmost-first engine does: the first group is greedy, so at every byte of
    the class the longer group is tried first; where the group stops, the rest
    of the input has to be a dash and a non-empty run of digits up to the end
    of the text.  [cell] holds the bytes the first group has taken, last
    first. *)
Fixpoint matchAlias (cell : string) (s : string) : option (string * string) :=
  match s with
  | EmptyString => None
  | String c s' =>
      let longer := if isCellChar c then matchAlias (String c cell) s' else None in
      match longer with
      | Some groups => Some groups
      | None =>
          if negb (isEmpty cell) && Ascii.eqb c "-"
             && negb (isEmpty s') && all strconv.isDigit s'
          then Some (String.rev cell, s')
          else None
      end
  end.

(** [tabletAliasRegexp.FindStringSubmatch(s)]: nil when [s] does not match,
    and otherwise the whole match followed by the two groups. *)
Definition FindStringSubmatch (s : string) : list string :=
  match matchAlias EmptyString s with
  | Some (cell, uid) => [s; cell; uid]
  | None => []
  end.

End regexp.

(** ** The messages of [topodata] *)

Module topodatapb.

Record TabletAlias := {
  Cell : string;
  (** a [uint32] *)
  Uid : Z;
}.

(** The fields of [topodata.Tablet] this package reads. *)
Record Tablet := {
  Alias : ptr TabletAlias;
  Hostname : string;
  Keyspace : string;
  Shard : string;
  (** a [TabletType] *)
  Type' : Z;
  DbNameOverride : string;
  MysqlHostname : string;
  (** an [int32] *)
  MysqlPort : Z;
}.

(** The generated code of the enumeration [topodata.TabletType], an [int32]:
    its constants, the two name tables and the [String] method.  The
    enumeration is declared outside this package, which only uses it: it is a
    parameter here. *)
Class TabletTypeEnum := {
  TabletType_UNKNOWN : Z;
  TabletType_PRIMARY : Z;
  TabletType_REPLICA : Z;
  TabletType_RDONLY : Z;
  TabletType_BATCH : Z;
  TabletType_SPARE : Z;
  TabletType_EXPERIMENTAL : Z;
  TabletType_BACKUP : Z;
  TabletType_RESTORE : Z;
  TabletType_DRAINED : Z;
  (** [map[int32]string] *)
  TabletType_name : gmap Z string;
  (** [map[string]int32] *)
  TabletType_value : gmap string Z;
  (** [func (x TabletType) String() string] *)
  TabletType_String : Z → string;
}.

(** [proto.Equal] on two alias pointers: two nil pointers are equal, a nil
    and a non-nil pointer are not, and two messages are equal when their
    fields are (a message is modelled by its declared fields). *)
Definition proto_Equal (x y : ptr TabletAlias) : bool :=
  match x, y with
  | None, None => true
  | Some a, Some b => String.eqb (Cell a) (Cell b) && (Uid a =? Uid b)%Z
  | _, _ => false
  end.

End topodatapb.
Import topodatapb.

(** ** Package [sort] *)

Module sort.

(** [sort.Interface] *)
Class Interface (T : Type) := {
  Len : T → nat;
  Less : T → nat → nat → exec bool;
  Swap : T → nat → nat → exec T;
}.

Section insertion.
Context {T : Type} `{Interface T}.

(** The inner loop of [insertionSort]:
    [for j := i; j > a && data.Less(j, j-1); j-- { data.Swap(j, j-1) }] *)
Fixpoint sink (data : T) (a j : nat) : exec T :=
  match j with
  | O => Done data
  | S j' =>
      if decide (a < j) then
        lt ← Less data j j';
        if lt : bool then data' ← Swap data j j'; sink data' a j'
        else Done data
      else Done data
  end.

(** The outer loop, [for i := a + 1; i < b; i++], with [todo] iterations
    left. *)
Fixpoint insertionSort_from (data : T) (a i todo : nat) : exec T :=
  match todo with
  | O => Done data
  | S todo' => data' ← sink data a i; insertionSort_from data' a (S i) todo'
  end.

Definition insertionSort (data : T) (a b : nat) : exec T :=
  insertionSort_from data a (a + 1) (b - (a + 1)).

(** [sort.Sort(data)].  On at most twelve elements it is
    [insertionSort(data, 0, n)]; longer inputs go through quick sort and heap
    sort first, which reach the same arrangement whenever [Less] is a strict
    total order on the values, as it is for strings and for aliases
    ([sorted_of_strings_unique], [sorted_of_lessAlias_unique]). *)
Definition Sort (data : T) : exec T :=
  insertionSort data 0 (Len data).

End insertion.

(** [sort.StringSlice] *)
Global Instance StringSlice : Interface (list string) := {|
  Len x := length x;
  Less x i j := a ← index x i; b ← index x j; Done (String.ltb a b);
  Swap x i j := a ← index x j; b ← index x i; Done (<[j:=b]> (<[i:=a]> x));
|}.

(** [sort.Strings(x)] *)
Definition Strings (x : list string) : exec (list string) := Sort x.

End sort.

(** ** Package [topoproto] *)

Module topoproto.

(** [TabletAliasList] is used mainly for sorting. *)
Abbreviation TabletAliasList := (list (option TabletAlias)).

Section topoproto.
Context {unicode : GoUnicode} {enum : TabletTypeEnum}.

(** [for i, x := range xs { st = body(i, x, st) }] *)
Fixpoint forRange {A St : Type} (body : nat → A → St → St) (i : nat) (xs : list A) (st : St) : St :=
  match xs with
  | [] => st
  | x :: xs' => forRange body (S i) xs' (body i x st)
  end.

(** [VtDbPrefix] + keyspace is the default name for databases. *)
Definition VtDbPrefix : string := "vt_".

(** The conversion from tablet type enum to lower case string, filled by
    [init] from [TabletType_name]. *)
Definition tabletTypeLowerName : gmap Z string :=
  map_fold (λ k v m, <[k := strings.ToLower v]> m) ∅ TabletType_name.

(** [TabletAliasIsZero] returns true iff cell and uid are empty. *)
Definition TabletAliasIsZero (ta : ptr TabletAlias) : bool :=
  match ta with
  | None => true
  | Some a => isEmpty (Cell a) && (Uid a =? 0)%Z
  end.

(** [TabletAliasEqual] returns true if two TabletAlias match. *)
Definition TabletAliasEqual (left right : ptr TabletAlias) : bool :=
  proto_Equal left right.

(** [IsTabletInList] returns true if the tablet is in the list of tablets
    given. *)
Fixpoint IsTabletInList (tablet : ptr Tablet) (allTablets : list (ptr Tablet)) : exec bool :=
  match allTablets with
  | [] => Done false
  | tab :: rest =>
      t ← deref tablet;
      t' ← deref tab;
      if TabletAliasEqual (Alias t) (Alias t') then Done true
      else IsTabletInList tablet rest
  end.

(** [TabletAliasString] formats a TabletAlias: [Sprintf("%v-%010d", Cell, Uid)]. *)
Definition TabletAliasString (ta : ptr TabletAlias) : string :=
  match ta with
  | None => "<nil>"
  | Some a => Cell a +:+ "-" +:+ fmt.Sprintf_0d 10 (Uid a)
  end.

(** [TabletAliasUIDStr] returns a string version of the uid. *)
Definition TabletAliasUIDStr (ta : ptr TabletAlias) : exec string :=
  a ← deref ta; Done (fmt.Sprintf_0d 10 (Uid a)).

Definition tabletAliasFormat : string :=
  "^(?P<cell>[-_.a-zA-Z0-9]+)-(?P<uid>[0-9]+)$".

(** [ParseUID] parses just the uid (a number). *)
Definition ParseUID (value : string) : Z * option error :=
  let '(uid, err) := strconv.ParseUint value 32 in
  match err with
  | Some _ => (0%Z, Wrap err "bad tablet uid")
  | None => ((uid mod 2 ^ 32)%Z, None)
  end.

(** [ParseTabletAlias] returns a TabletAlias for the input string, of the form
    <cell>-<uid>.  The group "cell" has index 1 and the group "uid" index 2. *)
Definition ParseTabletAlias (aliasStr : string) : ptr TabletAlias * option error :=
  match regexp.FindStringSubmatch aliasStr with
  | [_; cell; uidStr] =>
      let '(uid, err) := ParseUID uidStr in
      match err with
      | Some _ =>
          (None, Wrap err ("invalid tablet uid in alias '" +:+ aliasStr +:+ "'"))
      | None => (Some {| Cell := cell; Uid := uid |}, None)
      end
  | _ =>
      (None, Some (errorString
         ("invalid tablet alias: '" +:+ aliasStr +:+ "', expecting format: '"
            +:+ tabletAliasFormat +:+ "'")))
  end.

(** [ParseTabletSet] returns a set of tablets based on a provided comma
    separated list of tablets. *)
Definition ParseTabletSet (tabletListStr : string) : gset string :=
  if isEmpty tabletListStr then ∅
  else list_to_set (strings.Split tabletListStr ",").

Definition TabletAliasList_Less (tal : TabletAliasList) (i j : nat) : exec bool :=
  x ← index tal i ≫= deref;
  y ← index tal j ≫= deref;
  if String.ltb (Cell x) (Cell y) then Done true
  else if String.ltb (Cell y) (Cell x) then Done false
  else Done (Uid x <? Uid y)%Z.

Definition TabletAliasList_Swap (tal : TabletAliasList) (i j : nat) : exec TabletAliasList :=
  x ← index tal j;
  y ← index tal i;
  Done (<[j:=y]> (<[i:=x]> tal)).

(** [Len], [Less] and [Swap] are part of [sort.Interface]. *)
#[export] Instance TabletAliasList_Interface : sort.Interface TabletAliasList := {|
  sort.Len tal := length tal;
  sort.Less := TabletAliasList_Less;
  sort.Swap := TabletAliasList_Swap;
|}.

(** [ToStringSlice] returns a slice which is the result of mapping
    [TabletAliasString] over a slice of TabletAliases. *)
Definition ToStringSlice (tal : TabletAliasList) : list string :=
  let result := replicate (length tal) EmptyString in
  forRange (λ i alias result, <[i := TabletAliasString alias]> result) 0 tal result.

(** [AllTabletTypes] lists all the possible tablet types. *)
Definition AllTabletTypes : list Z := [
  TabletType_PRIMARY;
  TabletType_REPLICA;
  TabletType_RDONLY;
  TabletType_BATCH;
  TabletType_SPARE;
  TabletType_EXPERIMENTAL;
  TabletType_BACKUP;
  TabletType_RESTORE;
  TabletType_DRAINED
].

(** [ParseTabletType] parses the tablet type into the enum. *)
Definition ParseTabletType (param : string) : Z * option error :=
  match TabletType_value !! strings.ToUpper param with
  | None => (TabletType_UNKNOWN, Some (errorString ("unknown TabletType " +:+ param)))
  | Some value => (value, None)
  end.

(** [ParseTabletTypes] parses a comma separated list of tablet types and
    returns a slice with the respective enums. *)
Fixpoint ParseTabletTypes_loop (strs : list string) (tabletTypes : list Z) : list Z * option error :=
  match strs with
  | [] => (tabletTypes, None)
  | typeStr :: rest =>
      let '(t, err) := ParseTabletType typeStr in
      match err with
      | Some _ => ([], err)
      | None => ParseTabletTypes_loop rest (tabletTypes ++ [t])
      end
  end.

Definition ParseTabletTypes (param : string) : list Z * option error :=
  ParseTabletTypes_loop (strings.Split param ",") [].

(** [TabletTypeLString] returns a lower case version of the tablet type, or
    "unknown" if not known. *)
Definition TabletTypeLString (tabletType : Z) : string :=
  match tabletTypeLowerName !! tabletType with
  | None => "unknown"
  | Some value => value
  end.

(** [IsTypeInList] returns true if the given type is in the list. *)
Fixpoint IsTypeInList (tabletType : Z) (types : list Z) : bool :=
  match types with
  | [] => false
  | t :: rest => if (tabletType =? t)%Z then true else IsTypeInList tabletType rest
  end.

(** [MakeStringTypeList] returns a list of strings that match the input
    list. *)
Definition MakeStringTypeList (types : list Z) : exec (list string) :=
  let strs := replicate (length types) EmptyString in
  let strs :=
    forRange (λ i t strs, <[i := strings.ToLower (TabletType_String t)]> strs) 0 types strs in
  sort.Strings strs.

(** The loop of [MakeUniqueStringTypeList]: [seen] holds the names already
    met, [strs] the lower-case names appended so far. *)
Fixpoint MakeUniqueStringTypeList_loop (types : list Z) (strs : list string) (seen : gset string) : list string :=
  match types with
  | [] => strs
  | t :: rest =>
      if decide (TabletType_String t ∈ seen) then
        MakeUniqueStringTypeList_loop rest strs seen
      else
        MakeUniqueStringTypeList_loop rest
          (strs ++ [strings.ToLower (TabletType_String t)])
          ({[TabletType_String t]} ∪ seen)
  end.

(** [MakeUniqueStringTypeList] returns a unique list of strings that match the
    input list -- with duplicate types removed. *)
Definition MakeUniqueStringTypeList (types : list Z) : exec (list string) :=
  sort.Strings (MakeUniqueStringTypeList_loop types [] ∅).

(** [TabletDbName] is usually implied by keyspace. *)
Definition TabletDbName (tablet : ptr Tablet) : exec string :=
  t ← deref tablet;
  if negb (isEmpty (DbNameOverride t)) then Done (DbNameOverride t)
  else if isEmpty (Keyspace t) then Done EmptyString
  else Done (VtDbPrefix +:+ Keyspace t).

(** [TabletIsAssigned] returns if this tablet is assigned to a keyspace and
    shard. *)
Definition TabletIsAssigned (tablet : ptr Tablet) : bool :=
  match tablet with
  | None => false
  | Some t => negb (isEmpty (Keyspace t)) && negb (isEmpty (Shard t))
  end.

(** [IsServingType] returns true if the tablet type is one that should be
    serving to be healthy. *)
Definition IsServingType (tabletType : Z) : bool :=
  if (tabletType =? TabletType_PRIMARY)%Z || (tabletType =? TabletType_REPLICA)%Z
     || (tabletType =? TabletType_BATCH)%Z || (tabletType =? TabletType_EXPERIMENTAL)%Z
  then true
  else false.

End topoproto.
End topoproto.

(** * Vocabulary of the properties *)

(** [s] is [<cell>-<uid>]: a non-empty [cell] over [[-_.a-zA-Z0-9]], a dash,
    and a non-empty [uid] of decimal digits, with nothing before or after. *)
Definition MatchesAlias (s cell uid : string) : Prop :=
  s = cell +:+ "-" +:+ uid
  ∧ cell ≠ "" ∧ all regexp.isCellChar cell = true
  ∧ uid ≠ "" ∧ all strconv.isDigit uid = true.

(** The number a run of decimal digits denotes, most significant digit
    first, on top of the number [n] denoted by the digits before it. *)
Fixpoint valueFrom (s : string) (n : Z) : Z :=
  match s with
  | EmptyString => n
  | String c s' => valueFrom s' (n * 10 + (byte c - byte "0"))%Z
  end.

Definition decimalValue (s : string) : Z := valueFrom s 0%Z.

Definition maxUint32 : Z := (2 ^ 32 - 1)%Z.

(** Lexicographic order on byte strings: a proper prefix comes first, and
    otherwise the first byte that differs decides. *)
Inductive lexLt : string → string → Prop :=
| lexLt_prefix c s : lexLt EmptyString (String c s)
| lexLt_byte c1 c2 s1 s2 : (byte c1 < byte c2)%Z → lexLt (String c1 s1) (String c2 s2)
| lexLt_tail c s1 s2 : lexLt s1 s2 → lexLt (String c s1) (String c s2).

(** Cell first, uid among equal cells. *)
Definition aliasLt (x y : TabletAlias) : Prop :=
  lexLt (Cell x) (Cell y) ∨ (Cell x = Cell y ∧ (Uid x < Uid y)%Z).

(** [x] is not above [y]. *)
Definition aliasLe (x y : TabletAlias) : Prop := ¬ aliasLt y x.

(** What [Less] computes on two aliases. *)
Definition lessAlias (x y : TabletAlias) : bool :=
  if String.ltb (Cell x) (Cell y) then true
  else if String.ltb (Cell y) (Cell x) then false
  else (Uid x <? Uid y)%Z.

(** The order of two pointers, nil being below nothing. *)
Definition lessPtr (p q : ptr TabletAlias) : bool :=
  match p, q with
  | Some x, Some y => lessAlias x y
  | _, _ => false
  end.

(** [place lt x r] puts [x] into the descending list [r], behind the
    elements above it: what one run of [sort.sink] does to the prefix it
    walks down, seen from its right end. *)
Fixpoint place {A : Type} (lt : A → A → bool) (x : A) (r : list A) : list A :=
  match r with
  | [] => [x]
  | y :: r' => if lt x y then y :: place lt x r' else x :: r
  end.

(** The arrangement insertion sort reaches. *)
Definition sorted_of {A : Type} (lt : A → A → bool) (data : list A) : list A :=
  reverse (foldl (λ r x, place lt x r) [] data).

(** A tablet of keyspace [ks] with the override [override]. *)
Definition tabletOf (ks override : string) : Tablet := {|
  Alias := Some {| Cell := "zone1"; Uid := 100 |};
  Hostname := "host1";
  Keyspace := ks;
  Shard := "0";
  Type' := 2;
  DbNameOverride := override;
  MysqlHostname := "host1";
  MysqlPort := 3306;
|}.

(** [strings.Join(pieces, sep)] for a one-byte separator. *)
Fixpoint Join (pieces : list string) (sep : ascii) : string :=
  match pieces with
  | [] => EmptyString
  | piece :: rest =>
      match rest with
      | [] => piece
      | _ :: _ => piece +:+ String sep (Join rest sep)
      end
  end.

(** The number of bytes of [s] that are [c]. *)
Fixpoint countByte (c : ascii) (s : string) : nat :=
  match s with
  | EmptyString => 0
  | String b s' => (if Ascii.eqb b c then 1 else 0) + countByte c s'
  end.

(** No byte of [s] is [c]. *)
Definition freeOf (c : ascii) (s : string) : bool :=
  all (λ b, negb (Ascii.eqb b c)) s.

(** ** Instances to evaluate with *)

Module reference.

(** On ASCII strings the functions of [strings] never reach the Unicode
    tables, and [strconv.Quote] of printable ASCII without quote or backslash
    only adds the two double quotes: this instance is exact there. *)
Definition ascii_only : GoUnicode := {|
  Map_unicode_ToUpper s := s;
  Map_unicode_ToLower s := s;
  strconv_Quote s := dquote +:+ s +:+ dquote;
|}.

(** Modelled from the spec: the table [TabletType_name] of the enumeration
    [topodata.TabletType], whose generated code is not among the sources.  It
    holds the canonical name of every number: the roles the specification
    names, UNKNOWN being the zero value and the others numbered from one in
    the order of [AllTabletTypes], without BATCH, which is an alias. *)
Definition names : list (Z * string) := [
  (0, "UNKNOWN"); (1, "PRIMARY"); (2, "REPLICA"); (3, "RDONLY"); (4, "SPARE");
  (5, "EXPERIMENTAL"); (6, "BACKUP"); (7, "RESTORE"); (8, "DRAINED")
]%Z.

(** Modelled from the spec: the table [TabletType_value], from every name,
    aliases included, to its number. *)
Definition values : list (string * Z) := [
  ("UNKNOWN", 0); ("PRIMARY", 1); ("REPLICA", 2); ("RDONLY", 3); ("BATCH", 3);
  ("SPARE", 4); ("EXPERIMENTAL", 5); ("BACKUP", 6); ("RESTORE", 7);
  ("DRAINED", 8)
]%Z.

(** [strconv.Itoa] *)
Definition Itoa (z : Z) : string :=
  if (z <? 0)%Z then "-" +:+ fmt.digits (- z) else fmt.digits z.

(** Modelled from the spec: the enumeration [topodata.TabletType] (its
    constants, its two tables and its [String] method), whose generated code
    is not among the sources.  BATCH is an alias of RDONLY, the two constants
    being one number with RDONLY as its canonical name: this is what makes
    "rdonly" show up twice for [AllTabletTypes], as the comment of
    [MakeUniqueStringTypeList] says.  [String] gives the canonical name of a
    known number and the number in decimal otherwise. *)
Definition TabletType : TabletTypeEnum := {|
  TabletType_UNKNOWN := 0;
  TabletType_PRIMARY := 1;
  TabletType_REPLICA := 2;
  TabletType_RDONLY := 3;
  TabletType_BATCH := 3;
  TabletType_SPARE := 4;
  TabletType_EXPERIMENTAL := 5;
  TabletType_BACKUP := 6;
  TabletType_RESTORE := 7;
  TabletType_DRAINED := 8;
  TabletType_name := list_to_map names;
  TabletType_value := list_to_map values;
  TabletType_String x :=
    match (list_to_map names : gmap Z string) !! x with
    | Some name => name
    | None => Itoa x
    end;
|}.

End reference.


(** * Properties *)

(** ** The functions on the values the specification lists *)

Section examples.
Import topoproto.
#[local] Existing Instances reference.ascii_only reference.TabletType.

Example ParseTabletAlias_cell1 :
  ParseTabletAlias "cell1-0000000123" = (Some {| Cell := "cell1"; Uid := 123 |}, None).
Proof. reflexivity. Qed.

Example ParseTabletAlias_dashes :
  ParseTabletAlias "us-east-1a-7" = (Some {| Cell := "us-east-1a"; Uid := 7 |}, None).
Proof. reflexivity. Qed.

Example ParseTabletAlias_bad_alias :
  ParseTabletAlias "bad alias"
  = (None, Some (errorString
      "invalid tablet alias: 'bad alias', expecting format: '^(?P<cell>[-_.a-zA-Z0-9]+)-(?P<uid>[0-9]+)$'")).
Proof. reflexivity. Qed.

Example ParseTabletAlias_overflow :
  (λ r, (r.1, Error <$> r.2)) (ParseTabletAlias "zone1-4294967296")
  = (None, Some ("invalid tablet uid in alias 'zone1-4294967296': bad tablet uid: "
                 +:+ "strconv.ParseUint: parsing " +:+ dquote +:+ "4294967296" +:+ dquote
                 +:+ ": value out of range")).
Proof. reflexivity. Qed.

Example TabletAliasString_zone1 :
  TabletAliasString (Some {| Cell := "zone1"; Uid := 1 |}) = "zone1-0000000001"
  ∧ TabletAliasString None = "<nil>".
Proof. split; reflexivity. Qed.

Example TabletAliasIsZero_values :
  TabletAliasIsZero None = true
  ∧ TabletAliasIsZero (Some {| Cell := ""; Uid := 0 |}) = true
  ∧ TabletAliasIsZero (Some {| Cell := "zone1"; Uid := 0 |}) = false.
Proof. repeat split. Qed.

Example ParseTabletSet_values :
  ParseTabletSet "" = ∅
  ∧ ParseTabletSet "a,b,a" = {["a"; "b"]}
  ∧ size (ParseTabletSet "a,b,a") = 2.
Proof. repeat split; by vm_compute. Qed.

Example ParseTabletType_values :
  ParseTabletType "replica" = (TabletType_REPLICA, None)
  ∧ ParseTabletType "bogus" = (TabletType_UNKNOWN, Some (errorString "unknown TabletType bogus"))
  ∧ ParseTabletType " replica" = (TabletType_UNKNOWN, Some (errorString "unknown TabletType  replica")).
Proof. repeat split; by vm_compute. Qed.

Example ParseTabletTypes_values :
  ParseTabletTypes "primary,Replica,BATCH"
  = ([TabletType_PRIMARY; TabletType_REPLICA; TabletType_BATCH], None)
  ∧ ParseTabletTypes "primary,,replica" = ([], Some (errorString "unknown TabletType ")).
Proof. repeat split; by vm_compute. Qed.

Example TabletTypeLString_values :
  TabletTypeLString TabletType_BATCH = "rdonly" ∧ TabletTypeLString 42 = "unknown".
Proof. repeat split; by vm_compute. Qed.

(** "rdonly shows up twice in the list when using AllTabletTypes". *)
Example MakeStringTypeList_AllTabletTypes :
  MakeStringTypeList AllTabletTypes
  = Done ["backup"; "drained"; "experimental"; "primary"; "rdonly"; "rdonly";
          "replica"; "restore"; "spare"]
  ∧ MakeUniqueStringTypeList AllTabletTypes
    = Done ["backup"; "drained"; "experimental"; "primary"; "rdonly";
            "replica"; "restore"; "spare"].
Proof. repeat split; by vm_compute. Qed.

Example IsTypeInList_AllTabletTypes :
  IsTypeInList TabletType_RDONLY AllTabletTypes = true
  ∧ IsTypeInList TabletType_UNKNOWN AllTabletTypes = false.
Proof. repeat split. Qed.

Example TabletIsAssigned_values :
  TabletIsAssigned (Some (tabletOf "" "")) = false
  ∧ TabletIsAssigned (Some (tabletOf "ks1" "")) = true
  ∧ TabletIsAssigned None = false.
Proof. repeat split. Qed.

(** Nil pointers: the loop of [IsTabletInList] dereferences the tablet and
    each element it reaches, [Less] both elements it compares. *)
Example IsTabletInList_nil :
  IsTabletInList None [] = Done false
  ∧ IsTabletInList None [Some (tabletOf "ks1" "")] = Panic
  ∧ IsTabletInList (Some (tabletOf "ks1" "")) [None] = Panic
  ∧ IsTabletInList (Some (tabletOf "ks1" "")) [Some (tabletOf "ks2" "db"); None]
    = Done true.
Proof. repeat split. Qed.

Example Less_nil :
  sort.Less ([Some {| Cell := "a"; Uid := 1 |}; None] : TabletAliasList) 0 1 = Panic
  ∧ sort.Less ([Some {| Cell := "a"; Uid := 1 |}] : TabletAliasList) 0 1 = Panic.
Proof. repeat split. Qed.

End examples.

(** ** Bytes and strings *)

Section string_facts.

Lemma str_app_cons (c : ascii) (s1 s2 : string) :
  String c s1 +:+ s2 = String c (s1 +:+ s2).
Proof. done. Qed.

Lemma str_app_nil_l (s : string) : "" +:+ s = s.
Proof. done. Qed.

Lemma str_app_nil_r (s : string) : s +:+ "" = s.
Proof. induction s as [|c s IH]; [done|]. by rewrite str_app_cons, IH. Qed.

Lemma str_app_assoc (s1 s2 s3 : string) : (s1 +:+ s2) +:+ s3 = s1 +:+ s2 +:+ s3.
Proof. induction s1 as [|c s1 IH]; [done|]. by rewrite !str_app_cons, IH. Qed.

Lemma str_length_app (s1 s2 : string) :
  String.length (s1 +:+ s2) = String.length s1 + String.length s2.
Proof. induction s1 as [|c s1 IH]; [done|]. rewrite str_app_cons. cbn. by rewrite IH. Qed.

Lemma rev_app_spec (s1 s2 : string) :
  String.rev_app s1 s2 = String.rev s1 +:+ s2.
Proof.
  unfold String.rev. revert s2.
  induction s1 as [|c s1 IH]; intros s2; [done|].
  cbn. rewrite IH, (IH (String c "")), str_app_assoc. done.
Qed.

Lemma rev_cons (c : ascii) (s : string) :
  String.rev (String c s) = String.rev s +:+ String c "".
Proof. unfold String.rev at 1. cbn. apply rev_app_spec. Qed.

Lemma isEmpty_false (s : string) : isEmpty s = false ↔ s ≠ "".
Proof. by destruct s. Qed.

Lemma str_app_empty (s1 s2 : string) : s1 +:+ s2 = "" → s1 = "" ∧ s2 = "".
Proof. by destruct s1. Qed.

Lemma all_app (p : ascii → bool) (s1 s2 : string) :
  all p (s1 +:+ s2) = all p s1 && all p s2.
Proof.
  induction s1 as [|c s1 IH]; [done|].
  rewrite str_app_cons. cbn. rewrite IH. by destruct (p c).
Qed.

Lemma all_repeatByte (p : ascii → bool) (c : ascii) (n : nat) :
  p c = true → all p (repeatByte c n) = true.
Proof. intros Hc. induction n as [|n IH]; [done|]. cbn. by rewrite Hc, IH. Qed.

Lemma length_repeatByte (c : ascii) (n : nat) :
  String.length (repeatByte c n) = n.
Proof. induction n as [|n IH]; [done|]. cbn. by rewrite IH. Qed.

Lemma Contains_here (needle after : string) : Contains (needle +:+ after) needle.
Proof. by exists "", after. Qed.

Lemma Contains_app_r (before s needle : string) :
  Contains s needle → Contains (before +:+ s) needle.
Proof.
  intros (b & a & ->). exists (before +:+ b), a. by rewrite str_app_assoc.
Qed.

Lemma Contains_app_l (s after needle : string) :
  Contains s needle → Contains (s +:+ after) needle.
Proof.
  intros (b & a & ->). exists b, (a +:+ after). by rewrite !str_app_assoc.
Qed.

Lemma byte_chr (z : Z) : (0 ≤ z < 256)%Z → byte (chr z) = z.
Proof.
  intros Hz. unfold byte, chr. rewrite N_ascii_embedding by lia. lia.
Qed.

Lemma chr_byte (c : ascii) : chr (byte c) = c.
Proof. unfold byte, chr. by rewrite N2Z.id, ascii_N_embedding. Qed.

Lemma byte_inj (c1 c2 : ascii) : byte c1 = byte c2 → c1 = c2.
Proof. intros Heq. by rewrite <-(chr_byte c1), <-(chr_byte c2), Heq. Qed.

End string_facts.

(** ** The alias pattern *)

Section pattern.
Import regexp strconv.

Lemma isDigit_isCellChar (c : ascii) : isDigit c = true → isCellChar c = true.
Proof.
  unfold isCellChar, isDigit. intros ->. by rewrite !orb_true_r.
Qed.

Lemma isDigit_not_dash (c : ascii) : isDigit c = true → Ascii.eqb c "-" = false.
Proof.
  intros Hd. destruct (Ascii.eqb_spec c "-") as [->|]; [|done].
  by vm_compute in Hd.
Qed.

Lemma matchAlias_digits (cell s : string) :
  all isDigit s = true → matchAlias cell s = None.
Proof.
  revert cell. induction s as [|c s IH]; intros cell Hs; [done|].
  cbn in Hs. apply andb_true_iff in Hs as [Hc Hs].
  cbn. rewrite (isDigit_isCellChar c Hc), (IH _ Hs), (isDigit_not_dash c Hc).
  by rewrite andb_false_r.
Qed.

Lemma matchAlias_complete (cell more uid : string) :
  String.rev cell +:+ more ≠ "" →
  all isCellChar more = true →
  uid ≠ "" → all isDigit uid = true →
  matchAlias cell (more +:+ "-" +:+ uid) = Some (String.rev cell +:+ more, uid).
Proof.
  intros Hne Hmore Huid Hdigits. revert cell Hne.
  induction more as [|c more IH]; intros cell Hne.
  - rewrite str_app_nil_l, str_app_nil_r in *.
    change ("-" +:+ uid) with (String "-" uid). cbn.
    rewrite (matchAlias_digits _ _ Hdigits), Hdigits.
    destruct cell; [done|]. by destruct uid.
  - cbn in Hmore. apply andb_true_iff in Hmore as [Hc Hmore].
    rewrite str_app_cons. cbn. rewrite Hc.
    rewrite (IH Hmore (String c cell)).
    + by rewrite rev_cons, str_app_assoc.
    + rewrite rev_cons, str_app_assoc. intros [_ ?]%str_app_empty. done.
Qed.

Lemma matchAlias_sound (cell s c u : string) :
  matchAlias cell s = Some (c, u) →
  ∃ more, c = String.rev cell +:+ more ∧ s = more +:+ "-" +:+ u
          ∧ c ≠ "" ∧ all isCellChar more = true
          ∧ u ≠ "" ∧ all isDigit u = true.
Proof.
  revert cell. induction s as [|a s IH]; intros cell; [done|].
  cbn.
  destruct (if isCellChar a then matchAlias (String a cell) s else None)
    as [[c' u']|] eqn:Hlonger.
  - intros [= -> ->]. destruct (isCellChar a) eqn:Ha; [|done].
    destruct (IH _ Hlonger) as (more & -> & -> & Hne & Hmore & Hu & Hd).
    exists (String a more). rewrite rev_cons, str_app_assoc in *.
    repeat split; try done. cbn. by rewrite Ha.
  - destruct (isEmpty cell) eqn:Hcell; [done|].
    destruct (Ascii.eqb_spec a "-") as [->|]; [|done].
    destruct (isEmpty s) eqn:Hs; [done|].
    destruct (all isDigit s) eqn:Hd; [|done].
    intros [= <- <-]. exists "". rewrite str_app_nil_r.
    repeat split; try done.
    + destruct cell as [|b cell]; [done|]. rewrite rev_cons.
      intros [_ ?]%str_app_empty. done.
    + by apply isEmpty_false.
Qed.

(** [FindStringSubmatch] returns the three strings exactly on the inputs of
    the form [<cell>-<uid>], and nil on the others. *)
Lemma FindStringSubmatch_match (s cell uid : string) :
  MatchesAlias s cell uid → FindStringSubmatch s = [s; cell; uid].
Proof.
  intros (-> & Hne & Hcell & Hu & Hd). unfold FindStringSubmatch.
  by rewrite (matchAlias_complete "" cell uid).
Qed.

Lemma FindStringSubmatch_inv (s : string) (parts : list string) :
  FindStringSubmatch s = parts →
  parts = [] ∧ (∀ cell uid, ¬ MatchesAlias s cell uid)
  ∨ ∃ cell uid, parts = [s; cell; uid] ∧ MatchesAlias s cell uid.
Proof.
  unfold FindStringSubmatch. intros <-.
  destruct (matchAlias "" s) as [[c u]|] eqn:Hm.
  - right. exists c, u. split; [done|].
    apply matchAlias_sound in Hm as (more & -> & -> & ? & ? & ? & ?).
    by rewrite str_app_nil_l in *.
  - left. split; [done|]. intros cell uid Hmatch.
    apply FindStringSubmatch_match in Hmatch.
    unfold FindStringSubmatch in Hmatch. by rewrite Hm in Hmatch.
Qed.

(** The two groups of a match are determined by the input. *)
Lemma MatchesAlias_unique (s cell uid cell' uid' : string) :
  MatchesAlias s cell uid → MatchesAlias s cell' uid' → cell = cell' ∧ uid = uid'.
Proof.
  intros H1%FindStringSubmatch_match H2%FindStringSubmatch_match.
  rewrite H1 in H2. by simplify_eq.
Qed.

End pattern.

(** ** Decimal numerals *)

Section decimal.
Import strconv fmt.
Local Open Scope Z_scope.

Lemma isDigit_value (c : ascii) :
  isDigit c = true → 0 ≤ byte c - byte "0" ≤ 9.
Proof.
  unfold isDigit, between. intros [?%Z.leb_le ?%Z.leb_le]%andb_true_iff.
  change (byte "0") with 48 in *. change (byte "9") with 57 in *. lia.
Qed.

Lemma isDigit_chr (d : Z) : 0 ≤ d ≤ 9 → isDigit (chr (byte "0" + d)) = true.
Proof.
  intros Hd. unfold isDigit, between. rewrite byte_chr.
  - change (byte "0") with 48. change (byte "9") with 57.
    apply andb_true_iff. split; apply Z.leb_le; lia.
  - change (byte "0") with 48. lia.
Qed.

Lemma valueFrom_ge (s : string) (n : Z) :
  all isDigit s = true → 0 ≤ n → n ≤ valueFrom s n.
Proof.
  revert n. induction s as [|c s IH]; intros n Hs Hn; [cbn; lia|].
  cbn [all] in Hs. apply andb_true_iff in Hs as [Hc%isDigit_value Hs].
  cbn. etrans; [|apply IH]; [lia|done|lia].
Qed.

Lemma valueFrom_app (s1 s2 : string) (n : Z) :
  valueFrom (s1 +:+ s2) n = valueFrom s2 (valueFrom s1 n).
Proof.
  revert n. induction s1 as [|c s1 IH]; intros n; [done|].
  rewrite str_app_cons. cbn. apply IH.
Qed.

Lemma valueFrom_zeros (k : nat) : valueFrom (repeatByte "0" k) 0 = 0.
Proof. induction k as [|k IH]; [done|]. cbn. apply IH. Qed.

(** On digits whose value fits, the loop of [ParseUint] returns the value. *)
Lemma ParseUint_loop_fits (s : string) (n : Z) :
  all isDigit s = true → 0 ≤ n → valueFrom s n ≤ maxUint32 →
  ParseUint_loop (maxUint64 / 10 + 1) maxUint32 s n = inl (valueFrom s n).
Proof.
  revert n. induction s as [|c s IH]; intros n Hs Hn Hfit; [done|].
  cbn [all] in Hs. apply andb_true_iff in Hs as [Hc Hs].
  pose proof (isDigit_value c Hc) as Hd.
  cbn [valueFrom] in Hfit.
  pose proof (valueFrom_ge s (n * 10 + (byte c - byte "0")) Hs ltac:(lia)) as Hge.
  cbn [ParseUint_loop]. rewrite Hc.
  change (maxUint64 / 10 + 1) with 1844674407370955162 in *.
  unfold maxUint32 in *.
  rewrite (proj2 (Z.leb_gt _ _)) by lia.
  rewrite (proj2 (Z.leb_gt _ _)) by lia.
  rewrite (Z.mod_small (n * 10)) by lia.
  rewrite Z.mod_small by lia.
  rewrite (proj2 (Z.ltb_ge _ _)), (proj2 (Z.ltb_ge _ _)) by lia.
  cbn [orb]. apply IH; [done|lia|done].
Qed.

(** On digits whose value does not fit, it reports a range error. *)
Lemma ParseUint_loop_overflow (s : string) (n : Z) :
  all isDigit s = true → 0 ≤ n ≤ maxUint32 → maxUint32 < valueFrom s n →
  ParseUint_loop (maxUint64 / 10 + 1) maxUint32 s n = inr ErrRange.
Proof.
  revert n. induction s as [|c s IH]; intros n Hs Hn Hover; [cbn in *; lia|].
  cbn [all] in Hs. apply andb_true_iff in Hs as [Hc Hs].
  pose proof (isDigit_value c Hc) as Hd.
  cbn [valueFrom] in Hover.
  cbn [ParseUint_loop]. rewrite Hc.
  change (maxUint64 / 10 + 1) with 1844674407370955162 in *.
  unfold maxUint32 in *.
  rewrite (proj2 (Z.leb_gt _ _)) by lia.
  rewrite (proj2 (Z.leb_gt _ _)) by lia.
  rewrite (Z.mod_small (n * 10)) by lia.
  rewrite Z.mod_small by lia.
  rewrite (proj2 (Z.ltb_ge (n * 10 + _) (n * 10))) by lia.
  cbn [orb].
  destruct (Z.ltb_spec (2 ^ 32 - 1) (n * 10 + (byte c - byte "0"))); [done|].
  apply IH; [done|lia|done].
Qed.

Lemma ParseUint_fits (s : string) :
  s ≠ "" → all isDigit s = true → decimalValue s ≤ maxUint32 →
  ParseUint s 32 = (decimalValue s, None).
Proof.
  intros Hne Hs Hfit. unfold ParseUint.
  rewrite (proj2 (isEmpty_false s) Hne).
  change (2 ^ 32 - 1) with maxUint32.
  by rewrite ParseUint_loop_fits.
Qed.

Lemma ParseUint_overflow (s : string) :
  all isDigit s = true → maxUint32 < decimalValue s →
  ParseUint s 32 = (maxUint32, Some (NumError "ParseUint" s ErrRange)).
Proof.
  intros Hs Hover. unfold ParseUint.
  destruct s as [|c s]; [done|]. cbn [isEmpty].
  change (2 ^ 32 - 1) with maxUint32.
  by rewrite ParseUint_loop_overflow.
Qed.

(** The digits [fmt] writes. *)
Lemma digits_go_value (fuel : nat) (u : Z) (acc : string) :
  0 ≤ u < 10 ^ Z.of_nat fuel →
  valueFrom (digits_go fuel u acc) 0 = valueFrom acc u.
Proof.
  revert u acc. induction fuel as [|fuel IH]; intros u acc Hu.
  { cbn in *. by replace u with 0 by lia. }
  cbn [digits_go]. destruct (Z.ltb_spec u 10) as [Hlt|Hge].
  - cbn. rewrite byte_chr by (change (byte "0") with 48; lia).
    f_equal. lia.
  - rewrite IH.
    + cbn. rewrite byte_chr.
      * f_equal. pose proof (Z.div_mod u 10). lia.
      * pose proof (Z.mod_pos_bound u 10). change (byte "0") with 48. lia.
    + rewrite Nat2Z.inj_succ, Z.pow_succ_r in Hu by lia.
      split; [apply Z.div_pos; lia|]. apply Z.div_lt_upper_bound; lia.
Qed.

Lemma digits_go_all (fuel : nat) (u : Z) (acc : string) :
  0 ≤ u → all isDigit acc = true → all isDigit (digits_go fuel u acc) = true.
Proof.
  revert u acc. induction fuel as [|fuel IH]; intros u acc Hu Hacc; [done|].
  cbn [digits_go]. destruct (Z.ltb_spec u 10) as [Hlt|Hge].
  - cbn. by rewrite isDigit_chr by lia.
  - apply IH; [apply Z.div_pos; lia|].
    cbn. rewrite isDigit_chr; [done|].
    pose proof (Z.mod_pos_bound u 10). lia.
Qed.

Lemma digits_go_length (fuel : nat) (k : nat) (u : Z) (acc : string) :
  0 ≤ u < 10 ^ Z.of_nat k → (1 ≤ k ≤ fuel)%nat →
  (String.length acc + 1 ≤ String.length (digits_go fuel u acc)
   ≤ String.length acc + k)%nat.
Proof.
  revert k u acc. induction fuel as [|fuel IH]; intros k u acc Hu Hk; [lia|].
  cbn [digits_go]. destruct (Z.ltb_spec u 10) as [Hlt|Hge].
  - cbn. lia.
  - destruct k as [|[|k]]; [lia|cbn in Hu; lia|].
    specialize (IH (S k) (u / 10) (String (chr (byte "0" + u mod 10)) acc)).
    cbn [String.length] in IH.
    rewrite (Nat2Z.inj_succ (S k)), Z.pow_succ_r in Hu by lia.
    assert (0 ≤ u / 10 < 10 ^ Z.of_nat (S k)) as Hu'.
    { split; [apply Z.div_pos; lia|]. apply Z.div_lt_upper_bound; lia. }
    specialize (IH Hu' ltac:(lia)). lia.
Qed.

(** [%010d] of a [uint32]: ten decimal digits that denote the number. *)
Lemma Sprintf_0d_uint32 (u : Z) :
  0 ≤ u ≤ maxUint32 →
  String.length (Sprintf_0d 10 u) = 10%nat
  ∧ all isDigit (Sprintf_0d 10 u) = true
  ∧ decimalValue (Sprintf_0d 10 u) = u.
Proof.
  intros Hu. unfold maxUint32 in Hu. unfold Sprintf_0d, digits.
  pose proof (digits_go_length 20 10 u "" ltac:(lia) ltac:(lia)) as Hlen.
  cbn [String.length] in Hlen.
  split_and!.
  - rewrite str_length_app, length_repeatByte. lia.
  - rewrite all_app, all_repeatByte by done. by apply digits_go_all; [lia|].
  - unfold decimalValue. rewrite valueFrom_app, valueFrom_zeros.
    rewrite digits_go_value by lia. done.
Qed.

End decimal.

(** ** The alias codec *)

Section alias_codec.
Import regexp strconv fmt topoproto.
Context {unicode : GoUnicode}.

Lemma proto_Equal_eq (x y : ptr TabletAlias) : proto_Equal x y = true ↔ x = y.
Proof.
  destruct x as [[c1 u1]|], y as [[c2 u2]|]; cbn; try done.
  rewrite andb_true_iff, String.eqb_eq, Z.eqb_eq.
  split; [by intros [-> ->]|by intros [= -> ->]].
Qed.

Lemma TabletAliasString_matches (id : TabletAlias) :
  Cell id ≠ "" → all isCellChar (Cell id) = true → (0 ≤ Uid id ≤ maxUint32)%Z →
  MatchesAlias (TabletAliasString (Some id)) (Cell id) (Sprintf_0d 10 (Uid id)).
Proof.
  intros Hne Hcell Hu.
  destruct (Sprintf_0d_uint32 (Uid id) Hu) as (Hlen & Hd & _).
  unfold MatchesAlias; cbn [TabletAliasString]. split_and!; try done.
  intros Heq. by rewrite Heq in Hlen.
Qed.

Lemma ParseUID_fits (value : string) :
  value ≠ "" → all isDigit value = true → (decimalValue value ≤ maxUint32)%Z →
  ParseUID value = (decimalValue value, None).
Proof.
  intros Hne Hd Hfit. unfold ParseUID. rewrite ParseUint_fits by done.
  f_equal. apply Z.mod_small. split; [|unfold maxUint32 in Hfit; lia].
  by apply (valueFrom_ge value 0).
Qed.

Lemma ParseUID_overflow (value : string) :
  all isDigit value = true → (maxUint32 < decimalValue value)%Z →
  ParseUID value =
    (0%Z, Some (wrapping (NumError "ParseUint" value ErrRange) "bad tablet uid")).
Proof.
  intros Hd Hover. unfold ParseUID. by rewrite ParseUint_overflow.
Qed.

(** A string of the form [<cell>-<uid>] whose digits denote a number of 32
    bits parses to that cell and that number. *)
Lemma ParseTabletAlias_ok (aliasStr cell uid : string) :
  MatchesAlias aliasStr cell uid → (decimalValue uid ≤ maxUint32)%Z →
  ParseTabletAlias aliasStr = (Some {| Cell := cell; Uid := decimalValue uid |}, None).
Proof.
  intros Hm Hfit. unfold ParseTabletAlias.
  rewrite (FindStringSubmatch_match _ _ _ Hm).
  destruct Hm as (_ & _ & _ & Hne & Hd).
  by rewrite ParseUID_fits.
Qed.

(** C1. Round trip: for an alias whose cell is a non-empty string over
    [[-_.a-zA-Z0-9]] and whose uid is any unsigned 32-bit number,
    [ParseTabletAlias] of its [TabletAliasString] succeeds (nil error) and
    returns an alias equal to the original one, field by field. *)
Theorem ParseTabletAlias_TabletAliasString (id : TabletAlias) :
  Cell id ≠ "" →
  all isCellChar (Cell id) = true →
  (0 ≤ Uid id ≤ maxUint32)%Z →
  ParseTabletAlias (TabletAliasString (Some id)) = (Some id, None)
  ∧ TabletAliasEqual (ParseTabletAlias (TabletAliasString (Some id))).1 (Some id) = true.
Proof.
  intros Hne Hcell Hu.
  destruct (Sprintf_0d_uint32 (Uid id) Hu) as (_ & _ & Hval).
  assert (ParseTabletAlias (TabletAliasString (Some id)) = (Some id, None)) as Hparse.
  { rewrite (ParseTabletAlias_ok _ _ _ (TabletAliasString_matches id Hne Hcell Hu))
      by (rewrite Hval; lia).
    rewrite Hval. by destruct id. }
  split; [done|]. rewrite Hparse. by apply proto_Equal_eq.
Qed.

Lemma ParseTabletAlias_TabletAliasString_witness :
  ParseTabletAlias (TabletAliasString (Some {| Cell := "zone-1.a_B"; Uid := 4294967295 |}))
  = (Some {| Cell := "zone-1.a_B"; Uid := 4294967295 |}, None).
Proof.
  refine (proj1 (ParseTabletAlias_TabletAliasString
                   {| Cell := "zone-1.a_B"; Uid := 4294967295 |} _ _ _)).
  - done.
  - reflexivity.
  - unfold maxUint32. cbn. lia.
Defined.

(** C2. [ParseTabletAlias] fails on every string that is not of the anchored
    form [<cell>-<uid>]: it returns nil and an error made by [fmt.Errorf]
    whose message contains the string and the expected pattern.  On every
    string of that form whose digits denote a number above the unsigned
    32-bit range it returns nil and an error that wraps (twice, through
    [ParseUID]) the range error of [strconv.ParseUint], with a message that
    contains the string. *)
Theorem ParseTabletAlias_errors (aliasStr : string) :
  ((∀ cell uid, ¬ MatchesAlias aliasStr cell uid) →
   ∃ msg,
     ParseTabletAlias aliasStr = (None, Some (errorString msg))
     ∧ Contains (Error (errorString msg)) aliasStr
     ∧ Contains (Error (errorString msg)) tabletAliasFormat)
  ∧ (∀ cell uid,
       MatchesAlias aliasStr cell uid → (maxUint32 < decimalValue uid)%Z →
       ∃ e msg,
         ParseTabletAlias aliasStr = (None, Some e)
         ∧ e = wrapping (wrapping (NumError "ParseUint" uid ErrRange) "bad tablet uid") msg
         ∧ RootCause e = NumError "ParseUint" uid ErrRange
         ∧ Contains msg aliasStr
         ∧ Contains (Error e) aliasStr).
Proof.
  split.
  - intros Hno. eexists. split_and!.
    + unfold ParseTabletAlias.
      destruct (FindStringSubmatch_inv aliasStr _ eq_refl)
        as [[-> _]|(cell & uid & _ & Hm)]; [done|].
      by destruct (Hno cell uid).
    + cbn [Error]. apply Contains_app_r, Contains_here.
    + cbn [Error]. do 3 apply Contains_app_r. apply Contains_here.
  - intros cell uid Hm Hover.
    assert (Contains ("invalid tablet uid in alias '" +:+ aliasStr +:+ "'") aliasStr)
      as Hmsg by apply Contains_app_r, Contains_here.
    do 2 eexists. split_and!; [|done|done|done|].
    + unfold ParseTabletAlias. rewrite (FindStringSubmatch_match _ _ _ Hm).
      destruct Hm as (_ & _ & _ & _ & Hd).
      by rewrite ParseUID_overflow.
    + cbn [Error]. by apply Contains_app_l.
Qed.

End alias_codec.

Lemma ParseTabletAlias_errors_witness :
  (∃ msg, topoproto.ParseTabletAlias "bad alias" = (None, Some (errorString msg))
          ∧ Contains msg "bad alias")
  ∧ (∃ e, topoproto.ParseTabletAlias "cell1-4294967296" = (None, Some e)
          ∧ RootCause e = NumError "ParseUint" "4294967296" ErrRange).
Proof.
  split.
  - destruct (proj1 (ParseTabletAlias_errors (unicode := reference.ascii_only) "bad alias")) as (msg & Hp & Hc & _).
    + intros cell uid Hm. apply FindStringSubmatch_match in Hm.
      vm_compute in Hm. discriminate Hm.
    + exists msg. split; [exact Hp|exact Hc].
  - destruct (proj2 (ParseTabletAlias_errors (unicode := reference.ascii_only)
                      "cell1-4294967296") "cell1" "4294967296")
      as (e & msg & Hp & _ & Hroot & _).
    + unfold MatchesAlias. repeat split; discriminate.
    + reflexivity.
    + exists e. split; [exact Hp|exact Hroot].
Defined.

(** ** Insertion sort over a slice *)

Section insertion_sort.
Context {A : Type} `{!sort.Interface (list A)}.
(** [lt] decides the order on the elements that are [ok] to compare. *)
Context (lt : A → A → bool) (ok : A → Prop).
Hypothesis Len_length : ∀ data : list A, sort.Len data = length data.
Hypothesis Less_lt : ∀ (data : list A) i j x y,
  data !! i = Some x → data !! j = Some y → ok x → ok y →
  sort.Less data i j = Done (lt x y).
Hypothesis Swap_swap : ∀ (data : list A) i j x y,
  data !! i = Some x → data !! j = Some y →
  sort.Swap data i j = Done (<[j:=x]> (<[i:=y]> data)).

Lemma place_length (x : A) (r : list A) :
  length (place lt x r) = S (length r).
Proof.
  induction r as [|y r IH]; [done|]. cbn. destruct (lt x y); cbn; by rewrite ?IH.
Qed.

Lemma place_Permutation (x : A) (r : list A) : place lt x r ≡ₚ x :: r.
Proof.
  induction r as [|y r IH]; [done|]. cbn. destruct (lt x y); [|done].
  rewrite IH. apply Permutation_swap.
Qed.

Lemma sorted_of_Permutation (data : list A) : sorted_of lt data ≡ₚ data.
Proof.
  unfold sorted_of. rewrite reverse_Permutation.
  assert (∀ r, foldl (λ r x, place lt x r) r data ≡ₚ r ++ data) as Hfold.
  { induction data as [|x data IH]; intros r; cbn.
    - by rewrite app_nil_r.
    - rewrite IH, place_Permutation. by rewrite <-Permutation_middle. }
  apply (Hfold []).
Qed.

Lemma swap_adjacent (l : list A) (x y : A) (rest : list A) :
  <[length l:=x]> (<[S (length l):=y]> (l ++ y :: x :: rest)) = l ++ x :: y :: rest.
Proof. induction l as [|z l IH]; [done|]. cbn. f_equal. exact IH. Qed.

Lemma sink_place (r : list A) (x : A) (rest : list A) :
  Forall ok (x :: r) →
  sort.sink (reverse r ++ x :: rest) 0 (length r)
  = Done (reverse (place lt x r) ++ rest).
Proof.
  intros Hok. apply Forall_cons in Hok as [Hx Hr].
  revert rest. induction Hr as [|y r Hy Hr IH]; intros rest; [done|].
  cbn [length sort.sink]. rewrite decide_True by lia.
  assert ((reverse (y :: r) ++ x :: rest) !! S (length r) = Some x) as Hj.
  { apply list_lookup_middle. rewrite length_reverse. done. }
  assert ((reverse (y :: r) ++ x :: rest) !! length r = Some y) as Hj'.
  { rewrite reverse_cons, <-app_assoc. apply list_lookup_middle.
    by rewrite length_reverse. }
  rewrite (Less_lt _ _ _ x y) by done. cbn [mbind exec_bind place].
  destruct (lt x y).
  - rewrite (Swap_swap _ _ _ x y) by done. cbn [mbind exec_bind].
    replace (<[length r:=x]> (<[S (length r):=y]> (reverse (y :: r) ++ x :: rest)))
      with (reverse r ++ x :: y :: rest).
    + rewrite IH. by rewrite reverse_cons, <-app_assoc.
    + rewrite reverse_cons, <-!app_assoc. cbn [app].
      rewrite <-(length_reverse r). by rewrite swap_adjacent.
  - by rewrite (reverse_cons (y :: r)), <-app_assoc.
Qed.

Lemma insertionSort_from_place (r rest : list A) :
  Forall ok (r ++ rest) →
  sort.insertionSort_from (reverse r ++ rest) 0 (length r) (length rest)
  = Done (reverse (foldl (λ r x, place lt x r) r rest)).
Proof.
  revert r. induction rest as [|x rest IH]; intros r Hok.
  - cbn. by rewrite app_nil_r.
  - cbn [length sort.insertionSort_from foldl].
    rewrite sink_place.
    + cbn [mbind exec_bind]. rewrite <-(place_length x r). apply IH.
      rewrite place_Permutation. cbn [app]. by rewrite Permutation_middle.
    + rewrite <-Permutation_middle in Hok.
      apply Forall_cons in Hok as [? [? _]%Forall_app]. by constructor.
Qed.

(** On elements that can be compared, [sort.Sort] returns and its result is
    [sorted_of]. *)
Lemma Sort_sorted_of (data : list A) :
  Forall ok data → sort.Sort data = Done (sorted_of lt data).
Proof.
  intros Hok. unfold sort.Sort, sort.insertionSort, sorted_of.
  rewrite Len_length. destruct data as [|x data]; [done|].
  cbn [length foldl place]. replace (S (length data) - (0 + 1)) with (length data) by lia.
  apply (insertionSort_from_place [x] data Hok).
Qed.

(** When [lt] is asymmetric, no element of the result is above its
    successor. *)
Hypothesis lt_asym : ∀ x y, lt x y = true → lt y x = false.

Lemma place_Sorted (x : A) (r : list A) :
  Sorted (λ a b, lt a b = false) r → Sorted (λ a b, lt a b = false) (place lt x r).
Proof.
  induction 1 as [|y r Hr IH Hhd]; [by repeat constructor|].
  cbn. destruct (lt x y) eqn:Hxy.
  - constructor; [done|]. destruct Hhd as [|z r Hyz]; cbn.
    + constructor. by apply lt_asym.
    + destruct (lt x z); constructor; [done|by apply lt_asym].
  - by repeat constructor.
Qed.

Lemma sorted_of_Sorted (data : list A) :
  Sorted (λ a b, lt b a = false) (sorted_of lt data).
Proof.
  unfold sorted_of.
  apply (Sorted_reverse (λ a b, lt a b = false)).
  assert (∀ r, Sorted (λ a b, lt a b = false) r →
               Sorted (λ a b, lt a b = false) (foldl (λ r x, place lt x r) r data))
    as Hfold.
  { induction data as [|x data IH]; intros r Hr; [done|].
    cbn. by apply IH, place_Sorted. }
  apply Hfold. constructor.
Qed.

End insertion_sort.

(** ** The order of aliases *)

Lemma Sorted_weaken {A : Type} (R1 R2 : relation A) (l : list A) :
  (∀ x y, R1 x y → R2 x y) → Sorted R1 l → Sorted R2 l.
Proof.
  intros Himpl. induction 1 as [|x l _ IH Hhd]; constructor; [done|].
  destruct Hhd; constructor. by apply Himpl.
Qed.

Section alias_order.
Import topoproto.

Lemma ascii_compare_byte (c1 c2 : ascii) :
  Ascii.compare c1 c2 = (byte c1 ?= byte c2)%Z.
Proof. unfold Ascii.compare, byte. by rewrite N2Z.inj_compare. Qed.

Lemma string_compare_refl (s : string) : String.compare s s = Eq.
Proof.
  induction s as [|c s IH]; [done|].
  cbn. by rewrite ascii_compare_byte, Z.compare_refl.
Qed.

Lemma string_compare_Lt (s1 s2 : string) : String.compare s1 s2 = Lt ↔ lexLt s1 s2.
Proof.
  split.
  - revert s2. induction s1 as [|c1 s1 IH]; intros [|c2 s2]; cbn; try done.
    + constructor.
    + rewrite ascii_compare_byte.
      destruct (Z.compare_spec (byte c1) (byte c2)) as [Heq|Hlt|Hgt]; [|by constructor|done].
      apply byte_inj in Heq as ->. intros ?. by apply lexLt_tail, IH.
  - induction 1 as [c s|c1 c2 s1 s2 Hlt|c s1 s2 _ IH]; cbn; [done|..].
    + rewrite ascii_compare_byte. by apply Z.compare_lt_iff in Hlt as ->.
    + by rewrite ascii_compare_byte, Z.compare_refl.
Qed.

Lemma string_ltb_lexLt (s1 s2 : string) : String.ltb s1 s2 = true ↔ lexLt s1 s2.
Proof.
  rewrite <-string_compare_Lt. unfold String.ltb.
  by destruct (String.compare s1 s2).
Qed.

Lemma string_ltb_asym (s1 s2 : string) :
  String.ltb s1 s2 = true → String.ltb s2 s1 = false.
Proof.
  unfold String.ltb. rewrite (String.compare_antisym s1 s2).
  by destruct (String.compare s2 s1).
Qed.

Lemma string_ltb_leb (s1 s2 : string) :
  String.ltb s2 s1 = false ↔ String.le s1 s2.
Proof.
  unfold String.le, String.leb, String.ltb. rewrite (String.compare_antisym s1 s2).
  destruct (String.compare s2 s1); cbn; naive_solver.
Qed.

Lemma string_ltb_irrefl (s : string) : String.ltb s s = false.
Proof. unfold String.ltb. by rewrite string_compare_refl. Qed.

Lemma string_trichotomy (s1 s2 : string) :
  String.ltb s1 s2 = false → String.ltb s2 s1 = false → s1 = s2.
Proof.
  unfold String.ltb. rewrite (String.compare_antisym s2 s1).
  destruct (String.compare s1 s2) eqn:Hc; try done.
  intros _ _. by apply String.compare_eq_iff.
Qed.

Lemma lexLt_irrefl (s : string) : ¬ lexLt s s.
Proof. rewrite <-string_ltb_lexLt, string_ltb_irrefl. done. Qed.

Lemma lessAlias_aliasLt (x y : TabletAlias) : lessAlias x y = true ↔ aliasLt x y.
Proof.
  unfold lessAlias, aliasLt.
  destruct (String.ltb (Cell x) (Cell y)) eqn:Hxy.
  { apply string_ltb_lexLt in Hxy. naive_solver. }
  destruct (String.ltb (Cell y) (Cell x)) eqn:Hyx.
  - split; [done|]. intros [Hlt|[Heq _]].
    + apply string_ltb_lexLt in Hlt. congruence.
    + rewrite Heq, string_ltb_irrefl in Hyx. done.
  - rewrite (string_trichotomy _ _ Hxy Hyx), Z.ltb_lt.
    split; [by right|]. intros [Hlt%lexLt_irrefl|[_ ?]]; done.
Qed.

Lemma lessAlias_asym (x y : TabletAlias) :
  lessAlias x y = true → lessAlias y x = false.
Proof.
  unfold lessAlias.
  destruct (String.ltb (Cell x) (Cell y)) eqn:Hxy.
  { by rewrite (string_ltb_asym _ _ Hxy). }
  destruct (String.ltb (Cell y) (Cell x)); [done|].
  intros ?%Z.ltb_lt. apply Z.ltb_ge. lia.
Qed.

Lemma aliasLe_le (x y : TabletAlias) :
  aliasLe x y
  ↔ String.le (Cell x) (Cell y)
    ∧ (String.le (Cell y) (Cell x) → (Uid x ≤ Uid y)%Z).
Proof.
  unfold aliasLe. rewrite <-lessAlias_aliasLt, <-!string_ltb_leb. unfold lessAlias.
  destruct (String.ltb (Cell y) (Cell x)), (String.ltb (Cell x) (Cell y));
    rewrite ?Z.ltb_lt; intuition (try done; lia).
Qed.

(** The order is a total order on aliases: two sorted rearrangements of one
    list are the same list, so that what [sort.Sort] returns does not depend
    on how it sorts. *)
Lemma aliasLe_trans : Transitive aliasLe.
Proof.
  intros x y z [Hxy Hxy']%aliasLe_le [Hyz Hyz']%aliasLe_le. apply aliasLe_le.
  split; [by etrans|]. intros Hzx.
  etrans; [apply Hxy'|apply Hyz']; by etrans.
Qed.

Lemma aliasLe_antisym : AntiSymm (=) aliasLe.
Proof.
  intros [cx ux] [cy uy] [Hxy Hxy']%aliasLe_le [Hyx Hyx']%aliasLe_le. cbn in *.
  assert (cx = cy) as -> by (by apply (anti_symm String.le)).
  f_equal. specialize (Hxy' Hyx). specialize (Hyx' Hxy). lia.
Qed.

Lemma sorted_of_lessAlias_Sorted (ids : list TabletAlias) :
  Sorted aliasLe (sorted_of lessAlias ids).
Proof.
  eapply Sorted_weaken; [|apply sorted_of_Sorted, lessAlias_asym].
  intros x y Hlt ?%lessAlias_aliasLt. cbn in Hlt. congruence.
Qed.

Lemma sorted_of_lessAlias_unique (ids sorted : list TabletAlias) :
  sorted ≡ₚ ids → Sorted aliasLe sorted → sorted = sorted_of lessAlias ids.
Proof.
  intros Hperm Hsorted.
  apply (@Sorted_unique _ aliasLe aliasLe_trans aliasLe_antisym); [done|..].
  - apply sorted_of_lessAlias_Sorted.
  - by rewrite sorted_of_Permutation.
Qed.

Lemma TabletAliasList_Less_present (tal : TabletAliasList) (i j : nat) (x y : TabletAlias) :
  tal !! i = Some (Some x) → tal !! j = Some (Some y) →
  TabletAliasList_Less tal i j = Done (lessAlias x y).
Proof.
  intros Hi Hj. unfold TabletAliasList_Less, index, lessAlias. rewrite Hi, Hj. cbn.
  by repeat case_match.
Qed.

Lemma TabletAliasList_Sort (tal : TabletAliasList) :
  Forall is_Some tal →
  sort.Sort tal = Done (sorted_of lessPtr tal).
Proof.
  apply (Sort_sorted_of lessPtr is_Some); [done|..].
  - intros data i j p q Hi Hj [x ->] [y ->].
    apply (TabletAliasList_Less_present data i j x y Hi Hj).
  - intros data i j p q Hi Hj. cbn. unfold TabletAliasList_Swap, index.
    by rewrite Hi, Hj.
Qed.

(** C3. [Less] orders two aliases by cell, compared lexicographically, and
    by uid, compared as numbers, when the cells are equal.  [sort.Sort] with
    this order returns, on any list of aliases, a rearrangement of the list
    in which no alias is above its successor ([aliasLe]); on
    [[{b,1}; {a,5}; {a,2}]] it yields [[{a,2}; {a,5}; {b,1}]]. *)
Theorem TabletAliasList_Less_order :
  (∀ (tal : TabletAliasList) (i j : nat) (x y : TabletAlias),
     tal !! i = Some (Some x) → tal !! j = Some (Some y) →
     ∃ b, sort.Less tal i j = Done b ∧ (b = true ↔ aliasLt x y))
  ∧ (∀ ids : list TabletAlias,
       ∃ sorted : list TabletAlias,
         sort.Sort (Some <$> ids : TabletAliasList) = Done (Some <$> sorted)
         ∧ sorted ≡ₚ ids
         ∧ Sorted aliasLe sorted)
  ∧ sort.Sort ([Some {| Cell := "b"; Uid := 1 |};
                Some {| Cell := "a"; Uid := 5 |};
                Some {| Cell := "a"; Uid := 2 |}] : TabletAliasList)
    = Done [Some {| Cell := "a"; Uid := 2 |};
            Some {| Cell := "a"; Uid := 5 |};
            Some {| Cell := "b"; Uid := 1 |}].
Proof.
  split_and!.
  - intros tal i j x y Hi Hj. exists (lessAlias x y). split.
    + by apply TabletAliasList_Less_present.
    + apply lessAlias_aliasLt.
  - intros ids.
    exists (sorted_of lessAlias ids).
    assert (sorted_of lessPtr (Some <$> ids) = Some <$> sorted_of lessAlias ids) as Hmap.
    { unfold sorted_of. rewrite fmap_reverse. f_equal.
      change (@nil (option TabletAlias)) with (Some <$> @nil TabletAlias).
      generalize (@nil TabletAlias).
      induction ids as [|x ids IH]; intros r; [done|].
      cbn [fmap list_fmap foldl]. rewrite <-IH. f_equal.
      clear. induction r as [|y r IH]; [done|].
      cbn. destruct (lessAlias x y); cbn; by rewrite ?IH. }
    split_and!.
    + rewrite TabletAliasList_Sort, Hmap; [done|].
      apply Forall_fmap, Forall_true. by eexists.
    + apply sorted_of_Permutation.
    + apply sorted_of_lessAlias_Sorted.
  - reflexivity.
Qed.

Lemma TabletAliasList_Less_order_witness :
  ∃ b, sort.Less ([Some {| Cell := "b"; Uid := 1 |};
                   Some {| Cell := "a"; Uid := 5 |};
                   Some {| Cell := "a"; Uid := 2 |}] : TabletAliasList) 2 1 = Done b
       ∧ (b = true ↔ aliasLt {| Cell := "a"; Uid := 2 |} {| Cell := "a"; Uid := 5 |}).
Proof.
  apply (proj1 TabletAliasList_Less_order); reflexivity.
Defined.

End alias_order.

(** ** Lists of aliases and of tablets *)

Section collections.
Import strconv fmt topoproto.

Lemma insert_at_end {B : Type} (l : list B) (x y : B) (rest : list B) :
  <[length l:=x]> (l ++ y :: rest) = l ++ x :: rest.
Proof. induction l as [|z l IH]; [done|]. cbn. f_equal. exact IH. Qed.

(** A loop that stores [f x] at the index of each [x] fills the slots in
    order. *)
Lemma forRange_store {A B : Type} (f : A → B) (d : B) (xs : list A) (filled : list B) :
  forRange (λ i x result, <[i:=f x]> result) (length filled) xs
    (filled ++ replicate (length xs) d)
  = filled ++ (f <$> xs).
Proof.
  revert filled. induction xs as [|x xs IH]; intros filled; [done|].
  cbn [forRange length replicate]. rewrite insert_at_end.
  rewrite (cons_middle (f x)), app_assoc.
  replace (S (length filled)) with (length (filled ++ [f x]))
    by (rewrite length_app; cbn; lia).
  rewrite IH. by rewrite <-app_assoc.
Qed.

Lemma ToStringSlice_fmap (tal : TabletAliasList) :
  ToStringSlice tal = TabletAliasString <$> tal.
Proof. apply (forRange_store TabletAliasString EmptyString tal []). Qed.

(** C4. [ToStringSlice] returns a list as long as its input whose element at
    every index is [TabletAliasString] of the input element at that index;
    [TabletAliasString] of nil is ["<nil>"], and of an alias it is the cell, a
    dash and the uid as ten decimal digits, zero-padded on the left. *)
Theorem ToStringSlice_spec (tal : TabletAliasList) :
  length (ToStringSlice tal) = length tal
  ∧ (∀ i : nat, ToStringSlice tal !! i = TabletAliasString <$> tal !! i)
  ∧ TabletAliasString None = "<nil>"
  ∧ (∀ id : TabletAlias,
       TabletAliasString (Some id) = Cell id +:+ "-" +:+ Sprintf_0d 10 (Uid id)
       ∧ ((0 ≤ Uid id ≤ maxUint32)%Z →
          String.length (Sprintf_0d 10 (Uid id)) = 10
          ∧ all isDigit (Sprintf_0d 10 (Uid id)) = true
          ∧ decimalValue (Sprintf_0d 10 (Uid id)) = Uid id)).
Proof.
  rewrite ToStringSlice_fmap. split_and!.
  - apply length_fmap.
  - intros i. apply list_lookup_fmap.
  - done.
  - intros id. split; [done|]. apply Sprintf_0d_uint32.
Qed.

Lemma ToStringSlice_spec_witness :
  ToStringSlice [Some {| Cell := "zone1"; Uid := 1 |}; None;
                 Some {| Cell := "cell-2"; Uid := 4294967295 |}]
  = ["zone1-0000000001"; "<nil>"; "cell-2-4294967295"]
  ∧ String.length (Sprintf_0d 10 123) = 10
  ∧ decimalValue (Sprintf_0d 10 123) = 123%Z.
Proof.
  pose proof (ToStringSlice_spec
    [Some {| Cell := "zone1"; Uid := 1 |}; None;
     Some {| Cell := "cell-2"; Uid := 4294967295 |}]) as (_ & _ & _ & Hfmt).
  split; [reflexivity|].
  destruct (Hfmt {| Cell := "c"; Uid := 123 |}) as [_ Hdigits].
  destruct Hdigits as (Hlen & _ & Hval).
  - unfold maxUint32. cbn. lia.
  - split; [exact Hlen|exact Hval].
Defined.

Lemma TabletAliasEqual_eq (left right : ptr TabletAlias) :
  TabletAliasEqual left right = true ↔ left = right.
Proof. apply proto_Equal_eq. Qed.

(** C9. [IsTabletInList] looks at the aliases only: on a tablet and a list of
    tablets it returns, and it returns true exactly when some tablet of the
    list has an alias equal to the alias of the tablet, whatever the other
    fields of the two are. *)
Theorem IsTabletInList_alias (tablet : Tablet) (allTablets : list Tablet) :
  (∃ b : bool,
     IsTabletInList (Some tablet) (Some <$> allTablets) = Done b
     ∧ (b = true ↔ ∃ tab, tab ∈ allTablets ∧ Alias tab = Alias tablet))
  ∧ (∀ tab : Tablet,
       Alias tab = Alias tablet → IsTabletInList (Some tablet) [Some tab] = Done true).
Proof.
  split.
  - induction allTablets as [|tab rest (b & Hrun & Hb)].
    + exists false. split; [done|]. split; [done|]. intros (tab & []%elem_of_nil & _).
    + cbn. destruct (TabletAliasEqual (Alias tablet) (Alias tab)) eqn:Heq.
      * exists true. split; [done|]. split; [|done]. intros _.
        exists tab. split; [left|]. symmetry. by apply TabletAliasEqual_eq.
      * exists b. split; [done|]. rewrite Hb. split.
        -- intros (tab' & Hin & Halias). exists tab'. split; [by right|done].
        -- intros (tab' & [->|Hin]%elem_of_cons & Halias); [|by exists tab'].
           assert (TabletAliasEqual (Alias tablet) (Alias tab) = true) as Htrue
             by (by apply TabletAliasEqual_eq).
           congruence.
  - intros tab Halias. cbn.
    by rewrite (proj2 (TabletAliasEqual_eq (Alias tablet) (Alias tab))).
Qed.

(** C8. [TabletDbName] returns the override whenever it is not empty,
    whatever the keyspace; with an empty override it returns the empty string
    for an empty keyspace and ["vt_"] followed by the keyspace otherwise. *)
Theorem TabletDbName_spec (tablet : Tablet) :
  (DbNameOverride tablet ≠ "" →
   TabletDbName (Some tablet) = Done (DbNameOverride tablet))
  ∧ (DbNameOverride tablet = "" → Keyspace tablet = "" →
     TabletDbName (Some tablet) = Done "")
  ∧ (DbNameOverride tablet = "" → Keyspace tablet ≠ "" →
     TabletDbName (Some tablet) = Done ("vt_" +:+ Keyspace tablet)).
Proof.
  unfold TabletDbName. cbn. split_and!.
  - intros Hne. by rewrite (proj2 (isEmpty_false _) Hne).
  - by intros -> ->.
  - intros -> Hne. cbn. by rewrite (proj2 (isEmpty_false _) Hne).
Qed.

Lemma TabletDbName_spec_witness :
  TabletDbName (Some (tabletOf "ks1" "")) = Done "vt_ks1"
  ∧ TabletDbName (Some (tabletOf "" "")) = Done ""
  ∧ TabletDbName (Some (tabletOf "ks1" "mydb")) = Done "mydb".
Proof.
  split_and!.
  - exact (proj2 (proj2 (TabletDbName_spec (tabletOf "ks1" "")))
             eq_refl ltac:(discriminate)).
  - exact (proj1 (proj2 (TabletDbName_spec (tabletOf "" ""))) eq_refl eq_refl).
  - exact (proj1 (TabletDbName_spec (tabletOf "ks1" "mydb")) ltac:(discriminate)).
Defined.

End collections.

Lemma IsTabletInList_alias_witness :
  topoproto.IsTabletInList (Some (tabletOf "ks1" ""))
    [Some {| Alias := Some {| Cell := "zone1"; Uid := 100 |};
             Hostname := "host2"; Keyspace := "ks2"; Shard := "-80";
             Type' := 3; DbNameOverride := "other";
             MysqlHostname := "host2"; MysqlPort := 3307 |}]
  = Done true.
Proof.
  apply (proj2 (IsTabletInList_alias (tabletOf "ks1" "") [])). reflexivity.
Defined.

(** ** Tablet types *)

Section tablet_types.
Import strings topoproto.
Context {unicode : GoUnicode} {enum : TabletTypeEnum}.

(** C7. [IsServingType] is true exactly for PRIMARY, REPLICA, BATCH and
    EXPERIMENTAL and false for every other value; DRAINED, SPARE, BACKUP,
    RESTORE and UNKNOWN are such other values as soon as the constants of the
    enumeration (RDONLY, an alias, left aside) are different numbers. *)
Theorem IsServingType_spec :
  (∀ t : Z,
     IsServingType t = true
     ↔ t ∈ [TabletType_PRIMARY; TabletType_REPLICA; TabletType_BATCH;
            TabletType_EXPERIMENTAL])
  ∧ (∀ t : Z,
       t ∉ [TabletType_PRIMARY; TabletType_REPLICA; TabletType_BATCH;
            TabletType_EXPERIMENTAL] →
       IsServingType t = false)
  ∧ (NoDup [TabletType_UNKNOWN; TabletType_PRIMARY; TabletType_REPLICA;
            TabletType_BATCH; TabletType_SPARE; TabletType_EXPERIMENTAL;
            TabletType_BACKUP; TabletType_RESTORE; TabletType_DRAINED] →
     IsServingType TabletType_DRAINED = false
     ∧ IsServingType TabletType_SPARE = false
     ∧ IsServingType TabletType_BACKUP = false
     ∧ IsServingType TabletType_RESTORE = false
     ∧ IsServingType TabletType_UNKNOWN = false).
Proof.
  assert (∀ t : Z,
     IsServingType t = true
     ↔ t ∈ [TabletType_PRIMARY; TabletType_REPLICA; TabletType_BATCH;
            TabletType_EXPERIMENTAL]) as Hiff.
  { intros t. unfold IsServingType. rewrite !elem_of_cons, elem_of_nil.
    destruct (Z.eqb_spec t TabletType_PRIMARY), (Z.eqb_spec t TabletType_REPLICA),
      (Z.eqb_spec t TabletType_BATCH), (Z.eqb_spec t TabletType_EXPERIMENTAL);
      cbn; intuition congruence. }
  assert (∀ t : Z,
       t ∉ [TabletType_PRIMARY; TabletType_REPLICA; TabletType_BATCH;
            TabletType_EXPERIMENTAL] →
       IsServingType t = false) as Hnot.
  { intros t Ht. destruct (IsServingType t) eqn:Hs; [|done]. by apply Hiff in Hs. }
  split_and!; [done|done|].
  intros Hdistinct. rewrite !NoDup_cons, !not_elem_of_cons in Hdistinct.
  split_and!; apply Hnot; rewrite !not_elem_of_cons;
    (split_and!; [..|apply not_elem_of_nil]); intuition congruence.
Qed.

(** C5. [ParseTabletType] looks the upper-cased input up in
    [TabletType_value]: a name of the table gives its value and a nil error,
    any other input gives UNKNOWN and an error whose message contains the
    input.  Upper-casing an ASCII input replaces each of its bytes a-z by
    the byte A-Z. *)
Theorem ParseTabletType_spec (param : string) :
  (∀ value : Z,
     TabletType_value !! ToUpper param = Some value →
     ParseTabletType param = (value, None))
  ∧ (TabletType_value !! ToUpper param = None →
     ∃ e, ParseTabletType param = (TabletType_UNKNOWN, Some e)
          ∧ Contains (Error e) param)
  ∧ (isASCII param = true → ToUpper param = mapBytes upperByte param).
Proof.
  unfold ParseTabletType. split_and!.
  - by intros value ->.
  - intros ->. eexists. split; [done|]. cbn.
    apply Contains_app_r. exists "", "". by rewrite str_app_nil_r.
  - intros Hascii. unfold ToUpper. by rewrite Hascii.
Qed.

Lemma Split_go_length (sep : ascii) (cur s : string) :
  0 < length (Split_go sep cur s).
Proof.
  revert cur. induction s as [|c s IH]; intros cur; cbn; [lia|].
  destruct (Ascii.eqb c sep); cbn; [lia|done].
Qed.

Lemma ParseTabletTypes_loop_length (strs : list string) (acc types : list Z) :
  ParseTabletTypes_loop strs acc = (types, None) →
  length types = length acc + length strs.
Proof.
  revert acc. induction strs as [|typeStr strs IH]; intros acc; cbn.
  - intros [= <-]. lia.
  - destruct (ParseTabletType typeStr) as [t [e|]]; [done|].
    intros ->%IH. rewrite length_app. cbn. lia.
Qed.

(** C10. Splitting the empty string gives one empty entry, so
    [ParseTabletTypes] of the empty string fails with the error of
    [ParseTabletType] for the empty name (which is not a name of the table)
    and no list; whenever [ParseTabletTypes] succeeds, its result is not
    empty. *)
Theorem ParseTabletTypes_empty :
  Split "" "," = [""]
  ∧ (TabletType_value !! "" = None →
     ParseTabletTypes "" = ([], Some (errorString "unknown TabletType "))
     ∧ ParseTabletTypes "" = ([], (ParseTabletType "").2))
  ∧ (∀ (param : string) (types : list Z),
       ParseTabletTypes param = (types, None) → types ≠ []).
Proof.
  split_and!.
  - done.
  - intros Hempty. unfold ParseTabletTypes. cbn. unfold ParseTabletType.
    change (ToUpper "") with "". by rewrite Hempty.
  - intros param types Hok%ParseTabletTypes_loop_length ->.
    pose proof (Split_go_length "," "" param) as Hlen.
    unfold Split in Hok. cbn in Hok. lia.
Qed.

End tablet_types.

Lemma IsServingType_spec_witness :
  topoproto.IsServingType (enum := reference.TabletType) 1 = true
  ∧ topoproto.IsServingType (enum := reference.TabletType) 8 = false.
Proof.
  destruct (IsServingType_spec (enum := reference.TabletType)) as (Hiff & _ & Hothers).
  split.
  - apply Hiff. apply list_elem_of_here.
  - apply Hothers. apply (bool_decide_unpack _). vm_compute. exact I.
Defined.

Lemma ParseTabletType_spec_witness :
  topoproto.ParseTabletType (unicode := reference.ascii_only)
    (enum := reference.TabletType) "replica" = (2%Z, None)
  ∧ ∃ e, topoproto.ParseTabletType (unicode := reference.ascii_only)
           (enum := reference.TabletType) "bogus" = (0%Z, Some e).
Proof.
  split.
  - apply (ParseTabletType_spec (unicode := reference.ascii_only)
             (enum := reference.TabletType) "replica").
    vm_compute. reflexivity.
  - destruct (ParseTabletType_spec (unicode := reference.ascii_only)
                (enum := reference.TabletType) "bogus") as (_ & Hunknown & _).
    destruct Hunknown as (e & Hparse & _).
    + vm_compute. reflexivity.
    + exists e. exact Hparse.
Defined.

Lemma ParseTabletTypes_empty_witness :
  topoproto.ParseTabletTypes (unicode := reference.ascii_only)
    (enum := reference.TabletType) ""
  = ([], Some (errorString "unknown TabletType ")).
Proof.
  apply (ParseTabletTypes_empty (unicode := reference.ascii_only)
           (enum := reference.TabletType)).
  vm_compute. reflexivity.
Defined.

(** ** Lists of type names *)

Section type_names.
Import strings topoproto.
Context {unicode : GoUnicode} {enum : TabletTypeEnum}.

Lemma Strings_sorted_of (x : list string) :
  sort.Strings x = Done (sorted_of String.ltb x).
Proof.
  apply (Sort_sorted_of String.ltb (λ _, True)); [done|..].
  - intros data i j a b Hi Hj _ _. cbn. unfold index. by rewrite Hi, Hj.
  - intros data i j a b Hi Hj. cbn. unfold index. by rewrite Hi, Hj.
  - by apply Forall_true.
Qed.

Lemma sorted_of_strings_Sorted (x : list string) :
  Sorted String.le (sorted_of String.ltb x).
Proof.
  eapply Sorted_weaken; [|apply sorted_of_Sorted, string_ltb_asym].
  intros a b Hlt. by apply string_ltb_leb.
Qed.

Lemma sorted_of_strings_unique (x sorted : list string) :
  sorted ≡ₚ x → Sorted String.le sorted → sorted = sorted_of String.ltb x.
Proof.
  intros Hperm Hsorted. apply (Sorted_unique String.le); [done|..].
  - apply sorted_of_strings_Sorted.
  - by rewrite sorted_of_Permutation.
Qed.

Lemma MakeStringTypeList_sorted_of (types : list Z) :
  MakeStringTypeList types
  = Done (sorted_of String.ltb ((λ t, ToLower (TabletType_String t)) <$> types)).
Proof.
  unfold MakeStringTypeList.
  rewrite (forRange_store (λ t, ToLower (TabletType_String t)) EmptyString types []).
  apply Strings_sorted_of.
Qed.

Lemma MakeUniqueStringTypeList_loop_elem (types : list Z) (strs : list string)
    (seen : gset string) (s : string) :
  s ∈ MakeUniqueStringTypeList_loop types strs seen
  ↔ s ∈ strs
    ∨ ∃ t, t ∈ types ∧ (TabletType_String t ∉ seen) ∧ s = ToLower (TabletType_String t).
Proof.
  revert strs seen. induction types as [|t rest IH]; intros strs seen; cbn.
  { split; [by left|]. by intros [?|(t & ?%elem_of_nil & _)]. }
  case_decide as Hseen; rewrite IH.
  - split; intros [Hs|(t' & Hin & Hnot & ->)]; [by left| |by left|].
    + right. exists t'. split; [by right|done].
    + apply elem_of_cons in Hin as [->|Hin]; [done|].
      right. by exists t'.
  - rewrite elem_of_app, list_elem_of_singleton. split.
    + intros [[Hs| ->]|(t' & Hin & Hnot & ->)]; [by left|..].
      * right. exists t. split; [by left|done].
      * right. exists t'. apply not_elem_of_union in Hnot as [_ Hnot].
        split; [by right|done].
    + intros [Hs|(t' & Hin & Hnot & ->)]; [by left; left|].
      apply elem_of_cons in Hin as [->|Hin]; [by left; right|].
      destruct (decide (TabletType_String t' = TabletType_String t)) as [->|Hne].
      * by left; right.
      * right. exists t'. split; [done|]. split; [|done].
        apply not_elem_of_union. by rewrite not_elem_of_singleton.
Qed.

(** C6. For two types with the same name, as BATCH and RDONLY have,
    [MakeUniqueStringTypeList] of the two returns the one lower-case name and
    [MakeStringTypeList] of the two returns it twice.  On every input both
    functions return a list sorted in the byte-wise lexicographic order:
    [MakeStringTypeList] a rearrangement of the lower-case names of the
    input, [MakeUniqueStringTypeList] a list of exactly those names. *)
Theorem MakeStringTypeList_aliases (a b : Z) :
  TabletType_String a = TabletType_String b →
  MakeUniqueStringTypeList [a; b] = Done [ToLower (TabletType_String a)]
  ∧ MakeStringTypeList [a; b]
    = Done [ToLower (TabletType_String a); ToLower (TabletType_String a)]
  ∧ (∀ types : list Z, ∃ strs : list string,
       MakeStringTypeList types = Done strs
       ∧ Sorted String.le strs
       ∧ strs ≡ₚ (λ t, ToLower (TabletType_String t)) <$> types)
  ∧ (∀ types : list Z, ∃ strs : list string,
       MakeUniqueStringTypeList types = Done strs
       ∧ Sorted String.le strs
       ∧ ∀ s, s ∈ strs ↔ ∃ t, t ∈ types ∧ s = ToLower (TabletType_String t)).
Proof.
  intros Hsame. split_and!.
  - unfold MakeUniqueStringTypeList. cbn [MakeUniqueStringTypeList_loop].
    rewrite decide_False by apply not_elem_of_empty.
    rewrite decide_True by (rewrite <-Hsame; apply elem_of_union_l, elem_of_singleton_2; done).
    by rewrite Strings_sorted_of.
  - rewrite MakeStringTypeList_sorted_of. cbn [fmap list_fmap]. rewrite <-Hsame.
    unfold sorted_of. cbn [foldl place]. by rewrite string_ltb_irrefl.
  - intros types. eexists. split; [apply MakeStringTypeList_sorted_of|]. split.
    + apply sorted_of_strings_Sorted.
    + apply sorted_of_Permutation.
  - intros types. eexists. split; [apply Strings_sorted_of|]. split.
    + apply sorted_of_strings_Sorted.
    + intros s. rewrite sorted_of_Permutation, MakeUniqueStringTypeList_loop_elem.
      split.
      * intros [?%elem_of_nil|(t & Hin & _ & ->)]; [done|]. by exists t.
      * intros (t & Hin & ->). right. exists t. split; [done|].
        split; [apply not_elem_of_empty|done].
Qed.

End type_names.

Lemma MakeStringTypeList_aliases_witness :
  topoproto.MakeUniqueStringTypeList (unicode := reference.ascii_only)
    (enum := reference.TabletType)
    [TabletType_BATCH (TabletTypeEnum := reference.TabletType);
     TabletType_RDONLY (TabletTypeEnum := reference.TabletType)]
  = Done ["rdonly"]
  ∧ topoproto.MakeStringTypeList (unicode := reference.ascii_only)
      (enum := reference.TabletType)
      [TabletType_BATCH (TabletTypeEnum := reference.TabletType);
       TabletType_RDONLY (TabletTypeEnum := reference.TabletType)]
    = Done ["rdonly"; "rdonly"].
Proof.
  destruct (MakeStringTypeList_aliases (unicode := reference.ascii_only)
              (enum := reference.TabletType) 3 3 eq_refl) as (Hunique & Hall & _).
  split; [exact Hunique|exact Hall].
Defined.

(** * Further properties of the code *)

(** ** Parsing numbers and aliases *)

Section parsing.
Import regexp strconv fmt topoproto.
Local Open Scope Z_scope.

(** What [ParseUint] accepts is a run of digits, and what it returns is the
    number they denote. *)
Lemma ParseUint_loop_inv (s : string) (n m : Z) :
  0 ≤ n ≤ maxUint32 →
  ParseUint_loop (maxUint64 / 10 + 1) maxUint32 s n = inl m →
  all isDigit s = true ∧ m = valueFrom s n ∧ 0 ≤ m ≤ maxUint32.
Proof.
  revert n. induction s as [|c s IH]; intros n Hn.
  { cbn. intros [= <-]. done. }
  cbn [ParseUint_loop all valueFrom].
  destruct (isDigit c) eqn:Hc; [|done].
  pose proof (isDigit_value c Hc) as Hd.
  change (maxUint64 / 10 + 1) with 1844674407370955162 in *.
  unfold maxUint32 in *.
  rewrite (proj2 (Z.leb_gt _ _)) by lia.
  rewrite (proj2 (Z.leb_gt _ _)) by lia.
  rewrite (Z.mod_small (n * 10)) by lia.
  rewrite Z.mod_small by lia.
  rewrite (proj2 (Z.ltb_ge (n * 10 + _) (n * 10))) by lia.
  cbn [orb andb].
  destruct (Z.ltb_spec (2 ^ 32 - 1) (n * 10 + (byte c - byte "0"))); [done|].
  intros Hloop. apply IH in Hloop; [done|lia].
Qed.

Lemma ParseUint_ok_iff (s : string) (m : Z) :
  ParseUint s 32 = (m, None)
  ↔ s ≠ "" ∧ all isDigit s = true ∧ decimalValue s = m ∧ m ≤ maxUint32.
Proof.
  split.
  - unfold ParseUint. destruct (isEmpty s) eqn:Hs; [done|].
    apply isEmpty_false in Hs. change (2 ^ 32 - 1) with maxUint32.
    destruct (ParseUint_loop _ _ s 0) as [m'|[]] eqn:Hloop; [|done..].
    intros [= <-].
    apply ParseUint_loop_inv in Hloop as (? & ? & ?); [|unfold maxUint32; lia].
    unfold decimalValue. split_and!; [done|done|done|lia].
  - intros (Hne & Hd & <- & Hfit). by apply ParseUint_fits.
Qed.

Lemma ParseUint_error (s : string) (m : Z) (e : error) :
  ParseUint s 32 = (m, Some e) →
  ∃ kind, e = NumError "ParseUint" s kind.
Proof.
  unfold ParseUint. destruct (isEmpty s); [intros [= <- <-]; by eexists|].
  destruct (ParseUint_loop _ _ s 0) as [m'|[]]; [done|..];
    intros [= <- <-]; by eexists.
Qed.

Lemma ParseUID_spec_iff (value : string) (n : Z) :
  ParseUID value = (n, None)
  ↔ value ≠ "" ∧ all isDigit value = true
    ∧ decimalValue value = n ∧ n ≤ maxUint32.
Proof.
  split.
  - unfold ParseUID. destruct (ParseUint value 32) as [m [e|]] eqn:Hp; [done|].
    apply ParseUint_ok_iff in Hp as (Hne & Hd & Hval & Hfit).
    intros [= <-]. split_and!; [done|done| |].
    + rewrite Z.mod_small; [done|].
      pose proof (valueFrom_ge value 0 Hd ltac:(done)).
      unfold decimalValue, maxUint32 in *. lia.
    + pose proof (Z.mod_pos_bound m (2 ^ 32)). unfold maxUint32. lia.
  - intros (Hne & Hd & <- & Hfit). by apply ParseUID_fits.
Qed.

(** X1. [ParseUID] returns a number and a nil error exactly on the non-empty
    runs of decimal digits that denote a number of 32 bits, and the number
    is the one denoted; on every other input (empty, a sign, a letter, a
    space, too large) it returns 0 together with the error of
    [strconv.ParseUint] on that input, wrapped with "bad tablet uid". *)
Theorem ParseUID_spec (value : string) :
  (∀ n : Z,
     ParseUID value = (n, None)
     ↔ value ≠ "" ∧ all isDigit value = true
       ∧ decimalValue value = n ∧ n ≤ maxUint32)
  ∧ ((∃ n, ParseUID value = (n, None) ∧ 0 ≤ n ≤ maxUint32)
     ∨ (∃ kind,
          ParseUID value
          = (0, Some (wrapping (NumError "ParseUint" value kind) "bad tablet uid")))).
Proof.
  split; [apply ParseUID_spec_iff|].
  unfold ParseUID in *. destruct (ParseUint value 32) as [m [e|]] eqn:Hp.
  - right. apply ParseUint_error in Hp as [kind ->]. by exists kind.
  - left. eexists. split; [done|].
    pose proof (Z.mod_pos_bound m (2 ^ 32)). unfold maxUint32. lia.
Qed.

Lemma ParseUID_spec_witness :
  ParseUID "0000000042" = (42, None).
Proof.
  apply (proj1 (ParseUID_spec "0000000042")).
  repeat split; [discriminate|unfold maxUint32; cbn; lia].
Defined.

End parsing.

Section alias_parsing.
Import regexp strconv fmt topoproto.
Local Open Scope Z_scope.

Lemma valueFrom_split (s : string) (n : Z) :
  valueFrom s n = n * 10 ^ Z.of_nat (String.length s) + valueFrom s 0.
Proof.
  revert n. induction s as [|c s IH]; intros n.
  { cbn. lia. }
  cbn [valueFrom String.length]. rewrite Nat2Z.inj_succ, Z.pow_succ_r by lia.
  rewrite (IH (n * 10 + _)), (IH (0 * 10 + _)). lia.
Qed.

Lemma valueFrom_bound (s : string) :
  all isDigit s = true → 0 ≤ valueFrom s 0 < 10 ^ Z.of_nat (String.length s).
Proof.
  induction s as [|c s IH]; intros Hs.
  { cbn. lia. }
  cbn [all] in Hs. apply andb_true_iff in Hs as [Hc%isDigit_value Hs].
  specialize (IH Hs).
  cbn [valueFrom String.length]. rewrite Nat2Z.inj_succ, Z.pow_succ_r by lia.
  rewrite valueFrom_split. nia.
Qed.

(** Two runs of digits of one length that denote one number are equal. *)
Lemma decimalValue_inj (s1 s2 : string) :
  all isDigit s1 = true → all isDigit s2 = true →
  String.length s1 = String.length s2 →
  decimalValue s1 = decimalValue s2 → s1 = s2.
Proof.
  unfold decimalValue. revert s2.
  induction s1 as [|c1 s1 IH]; intros [|c2 s2] H1 H2 Hlen Hval; try done.
  cbn [all] in H1, H2.
  apply andb_true_iff in H1 as [Hc1%isDigit_value H1].
  apply andb_true_iff in H2 as [Hc2%isDigit_value H2].
  cbn [String.length] in Hlen. apply Nat.succ_inj in Hlen.
  cbn [valueFrom] in Hval.
  rewrite (valueFrom_split s1), (valueFrom_split s2), Hlen in Hval.
  pose proof (valueFrom_bound s1 H1) as Hb1.
  pose proof (valueFrom_bound s2 H2) as Hb2.
  rewrite Hlen in Hb1.
  assert (byte c1 - byte "0" = byte c2 - byte "0") as Hd by nia.
  assert (c1 = c2) as -> by (apply byte_inj; lia).
  f_equal. apply IH; [done..|]. nia.
Qed.

Lemma ParseTabletAlias_inv (aliasStr : string) (id : TabletAlias) :
  ParseTabletAlias aliasStr = (Some id, None) →
  ∃ uid, MatchesAlias aliasStr (Cell id) uid
         ∧ decimalValue uid = Uid id ∧ 0 ≤ Uid id ≤ maxUint32.
Proof.
  unfold ParseTabletAlias.
  destruct (FindStringSubmatch_inv aliasStr _ eq_refl)
    as [[-> _]|(cell & uid & -> & Hm)]; [done|].
  destruct (ParseUID uid) as [n [e|]] eqn:Hu; [done|].
  intros [= <-]. cbn. exists uid.
  apply ParseUID_spec_iff in Hu as (_ & Hd & Hval & Hfit).
  split_and!; [done|done| |done].
  rewrite <-Hval. by apply (valueFrom_ge uid 0).
Qed.

(** X2. [ParseTabletAlias] returns an alias and a nil error exactly on the
    strings [<cell>-<uid>] whose digits denote a number of 32 bits, the
    alias having that cell and that number; on every string it returns
    either an alias and a nil error, or nil and an error, never both and
    never neither. *)
Theorem ParseTabletAlias_success (aliasStr : string) :
  (∀ id : TabletAlias,
     ParseTabletAlias aliasStr = (Some id, None)
     ↔ ∃ uid, MatchesAlias aliasStr (Cell id) uid
              ∧ decimalValue uid = Uid id ∧ Uid id ≤ maxUint32)
  ∧ ((∃ id, ParseTabletAlias aliasStr = (Some id, None))
     ∨ (∃ e, ParseTabletAlias aliasStr = (None, Some e))).
Proof.
  split.
  - intros id. split.
    + intros (uid & Hm & Hval & _ & Hfit)%ParseTabletAlias_inv. by exists uid.
    + intros (uid & Hm & Hval & Hfit).
      rewrite (ParseTabletAlias_ok _ _ _ Hm) by lia.
      rewrite Hval. by destruct id.
  - unfold ParseTabletAlias.
    destruct (FindStringSubmatch_inv aliasStr _ eq_refl)
      as [[-> _]|(cell & uid & -> & Hm)]; [right; by eexists|].
    destruct (ParseUID uid) as [n [e|]]; [right|left]; by eexists.
Qed.

Lemma ParseTabletAlias_success_witness :
  ParseTabletAlias "zone1-42" = (Some {| Cell := "zone1"; Uid := 42 |}, None).
Proof.
  apply (proj1 (ParseTabletAlias_success "zone1-42")).
  exists "42". unfold MatchesAlias, maxUint32.
  repeat split; [discriminate|discriminate|cbn; lia].
Defined.

Lemma MatchesAlias_all (s cell uid : string) :
  MatchesAlias s cell uid → all isCellChar s = true.
Proof.
  intros (-> & _ & Hcell & _ & Hd). rewrite !all_app, Hcell. cbn.
  clear -Hd. induction uid as [|c uid IH]; [done|].
  cbn in *. apply andb_true_iff in Hd as [Hc Hd].
  by rewrite (isDigit_isCellChar c Hc), IH.
Qed.

(** X3. What [ParseTabletAlias] accepts and returns: an accepted string
    holds only bytes of [[-_.a-zA-Z0-9]]; the alias returned has a non-empty
    cell over these bytes and a uid of 32 bits, so it is never the zero
    alias, and parsing its [TabletAliasString] gives it back. *)
Theorem ParseTabletAlias_result (aliasStr : string) (id : TabletAlias) :
  ParseTabletAlias aliasStr = (Some id, None) →
  all isCellChar aliasStr = true
  ∧ Cell id ≠ "" ∧ all isCellChar (Cell id) = true
  ∧ 0 ≤ Uid id ≤ maxUint32
  ∧ TabletAliasIsZero (Some id) = false
  ∧ ParseTabletAlias (TabletAliasString (Some id)) = (Some id, None).
Proof.
  intros Hp.
  destruct (ParseTabletAlias_inv _ _ Hp) as (uid & Hm & Hval & Hrange).
  pose proof (MatchesAlias_all _ _ _ Hm) as Hall.
  destruct Hm as (_ & Hne & Hcell & _ & Hd).
  pose proof Hrange as [? ?].
  split_and!; try done.
  - unfold TabletAliasIsZero. by rewrite (proj2 (isEmpty_false _) Hne).
  - destruct (Sprintf_0d_uint32 (Uid id) Hrange) as (_ & _ & Hv).
    rewrite (ParseTabletAlias_ok _ _ _ (TabletAliasString_matches id Hne Hcell Hrange))
      by (rewrite Hv; lia).
    rewrite Hv. by destruct id.
Qed.

Lemma ParseTabletAlias_result_witness :
  TabletAliasIsZero (Some {| Cell := "a-b"; Uid := 7 |}) = false
  ∧ ParseTabletAlias (TabletAliasString (Some {| Cell := "a-b"; Uid := 7 |}))
    = (Some {| Cell := "a-b"; Uid := 7 |}, None).
Proof.
  destruct (ParseTabletAlias_result "a-b-007" {| Cell := "a-b"; Uid := 7 |} eq_refl)
    as (_ & _ & _ & _ & Hzero & Hparse).
  split; [exact Hzero|exact Hparse].
Defined.

(** X4. Formatting what was parsed gives the input back exactly when the
    input writes its uid with ten digits: the string round trip holds on the
    padded form and on no other accepted string. *)
Theorem TabletAliasString_ParseTabletAlias (aliasStr : string) (id : TabletAlias) :
  ParseTabletAlias aliasStr = (Some id, None) →
  (TabletAliasString (Some id) = aliasStr
   ↔ String.length aliasStr = (String.length (Cell id) + 11)%nat).
Proof.
  intros Hp.
  destruct (ParseTabletAlias_inv _ _ Hp) as (uid & Hm & Hval & Hrange).
  destruct Hm as (-> & Hne & Hcell & Hu & Hd).
  destruct (Sprintf_0d_uint32 (Uid id) Hrange) as (Hlen & Hdigits & Hv).
  cbn [TabletAliasString]. rewrite !str_length_app. cbn [String.length].
  split.
  - intros Heq. apply (inj (String.app _)), (inj (String.app _)) in Heq.
    rewrite <-Heq, Hlen. lia.
  - intros Hlen'. do 2 f_equal. apply decimalValue_inj; [done..|lia|congruence].
Qed.

Lemma TabletAliasString_ParseTabletAlias_witness :
  TabletAliasString (Some {| Cell := "zone1"; Uid := 42 |}) = "zone1-0000000042".
Proof.
  apply (TabletAliasString_ParseTabletAlias "zone1-0000000042"
           {| Cell := "zone1"; Uid := 42 |} eq_refl).
  reflexivity.
Defined.

End alias_parsing.

(** ** Formatting aliases *)

Section alias_formatting.
Import regexp strconv fmt topoproto.
Local Open Scope Z_scope.


(** X5. [TabletAliasUIDStr] of an alias with a uid of 32 bits is the ten
    digits that end its [TabletAliasString], and [ParseUID] reads the uid
    back from them; unlike [TabletAliasString], it panics on nil. *)
Theorem TabletAliasUIDStr_spec (id : TabletAlias) :
  0 ≤ Uid id ≤ maxUint32 →
  ∃ uidStr,
    TabletAliasUIDStr (Some id) = Done uidStr
    ∧ String.length uidStr = 10%nat
    ∧ TabletAliasString (Some id) = Cell id +:+ "-" +:+ uidStr
    ∧ ParseUID uidStr = (Uid id, None)
    ∧ TabletAliasUIDStr None = Panic.
Proof.
  intros Hrange. destruct (Sprintf_0d_uint32 (Uid id) Hrange) as (Hlen & Hd & Hv).
  eexists. split; [done|]. split_and!; [done|done| |done].
  rewrite ParseUID_fits; [by rewrite Hv| |done|rewrite Hv; lia].
  intros Heq. by rewrite Heq in Hlen.
Qed.

Lemma TabletAliasUIDStr_spec_witness :
  ∃ uidStr,
    TabletAliasUIDStr (Some {| Cell := "zone1"; Uid := 4294967295 |}) = Done uidStr
    ∧ String.length uidStr = 10%nat
    ∧ TabletAliasString (Some {| Cell := "zone1"; Uid := 4294967295 |})
      = "zone1" +:+ "-" +:+ uidStr
    ∧ ParseUID uidStr = (4294967295, None)
    ∧ TabletAliasUIDStr None = Panic.
Proof.
  apply (TabletAliasUIDStr_spec {| Cell := "zone1"; Uid := 4294967295 |}).
  unfold maxUint32. cbn. lia.
Defined.





End alias_formatting.

(** ** Ordering and sorting aliases *)

Section alias_sorting.
Import topoproto.

Lemma lessAlias_irrefl (x : TabletAlias) : lessAlias x x = false.
Proof.
  unfold lessAlias. rewrite string_ltb_irrefl. apply Z.ltb_irrefl.
Qed.

Lemma lessAlias_trans (x y z : TabletAlias) :
  lessAlias x y = true → lessAlias y z = true → lessAlias x z = true.
Proof.
  intros Hxy Hyz. destruct (lessAlias x z) eqn:Hxz; [done|].
  assert (aliasLe z x) as Hzx by (by intros ?%lessAlias_aliasLt; congruence).
  assert (aliasLe x y) as Hxy'.
  { intros ?%lessAlias_aliasLt. apply lessAlias_asym in Hxy. congruence. }
  pose proof (aliasLe_trans _ _ _ Hzx Hxy') as Hzy.
  destruct Hzy. by apply lessAlias_aliasLt.
Qed.

Lemma lessAlias_total (x y : TabletAlias) :
  lessAlias x y = false → lessAlias y x = false → x = y.
Proof.
  intros Hxy Hyx. apply (aliasLe_antisym x y).
  - intros ?%lessAlias_aliasLt. congruence.
  - intros ?%lessAlias_aliasLt. congruence.
Qed.

(** X8. On a list of present aliases [Less] is a strict total order of the
    entries: no entry is before itself, the order is asymmetric and
    transitive, and two entries of which neither is before the other are
    the same alias.  An index out of range makes it panic. *)
Theorem TabletAliasList_Less_strict_total (ids : list TabletAlias) (i j k : nat) :
  i < length ids → j < length ids → k < length ids →
  TabletAliasList_Less (Some <$> ids) i i = Done false
  ∧ (TabletAliasList_Less (Some <$> ids) i j = Done true →
     TabletAliasList_Less (Some <$> ids) j i = Done false)
  ∧ (TabletAliasList_Less (Some <$> ids) i j = Done true →
     TabletAliasList_Less (Some <$> ids) j k = Done true →
     TabletAliasList_Less (Some <$> ids) i k = Done true)
  ∧ (TabletAliasList_Less (Some <$> ids) i j = Done false →
     TabletAliasList_Less (Some <$> ids) j i = Done false →
     ids !! i = ids !! j)
  ∧ (∀ n, length ids ≤ n →
       TabletAliasList_Less (Some <$> ids) n i = Panic
       ∧ TabletAliasList_Less (Some <$> ids) i n = Panic).
Proof.
  intros [x Hi]%lookup_lt_is_Some_2 [y Hj]%lookup_lt_is_Some_2
    [z Hk]%lookup_lt_is_Some_2.
  assert (∀ n a, ids !! n = Some a → (Some <$> ids) !! n = Some (Some a)) as Hlook.
  { intros n a Hn. by rewrite list_lookup_fmap, Hn. }
  rewrite !(TabletAliasList_Less_present _ _ _ _ _ (Hlook _ _ Hi) (Hlook _ _ Hi)).
  rewrite !(TabletAliasList_Less_present _ _ _ _ _ (Hlook _ _ Hi) (Hlook _ _ Hj)).
  rewrite !(TabletAliasList_Less_present _ _ _ _ _ (Hlook _ _ Hj) (Hlook _ _ Hi)).
  rewrite !(TabletAliasList_Less_present _ _ _ _ _ (Hlook _ _ Hj) (Hlook _ _ Hk)).
  rewrite !(TabletAliasList_Less_present _ _ _ _ _ (Hlook _ _ Hi) (Hlook _ _ Hk)).
  split_and!.
  - by rewrite lessAlias_irrefl.
  - intros [= Hxy]. by rewrite (lessAlias_asym _ _ Hxy).
  - intros [= Hxy] [= Hyz]. by rewrite (lessAlias_trans _ _ _ Hxy Hyz).
  - intros [= Hxy] [= Hyx]. rewrite Hi, Hj. f_equal. by apply lessAlias_total.
  - intros n Hn.
    assert ((Some <$> ids) !! n = None) as Hnone
      by (apply lookup_ge_None_2; by rewrite length_fmap).
    unfold TabletAliasList_Less, index. rewrite Hnone, (Hlook _ _ Hi). done.
Qed.

Lemma TabletAliasList_Less_strict_total_witness :
  TabletAliasList_Less
    (Some <$> [{| Cell := "b"; Uid := 1 |}; {| Cell := "a"; Uid := 5 |};
               {| Cell := "a"; Uid := 2 |}]) 2 2 = Done false
  ∧ TabletAliasList_Less
      (Some <$> [{| Cell := "b"; Uid := 1 |}; {| Cell := "a"; Uid := 5 |};
                 {| Cell := "a"; Uid := 2 |}]) 3 2 = Panic.
Proof.
  destruct (TabletAliasList_Less_strict_total
              [{| Cell := "b"; Uid := 1 |}; {| Cell := "a"; Uid := 5 |};
               {| Cell := "a"; Uid := 2 |}] 2 1 0) as (Hirr & _ & _ & _ & Hout);
    [cbn; lia..|].
  split; [exact Hirr|]. apply (Hout 3). cbn. lia.
Defined.

Lemma TabletAliasList_Sort_present (ids : list TabletAlias) :
  sort.Sort (Some <$> ids : TabletAliasList)
  = Done (Some <$> sorted_of lessAlias ids).
Proof.
  rewrite TabletAliasList_Sort by (apply Forall_fmap, Forall_true; by eexists).
  f_equal. unfold sorted_of. rewrite fmap_reverse. f_equal.
  change (@nil (option TabletAlias)) with (Some <$> @nil TabletAlias).
  generalize (@nil TabletAlias).
  induction ids as [|x ids IH]; intros r; [done|].
  cbn [fmap list_fmap foldl]. rewrite <-IH. f_equal.
  clear. induction r as [|y r IH]; [done|].
  cbn. destruct (lessAlias x y); cbn; by rewrite ?IH.
Qed.

(** X9. Sorting a list of present aliases depends on the aliases only, not
    on the order they come in: two rearrangements of one list sort to the
    same list.  The result has the length of the input, a list already in
    order is returned as it is, and so sorting twice changes nothing. *)
Theorem TabletAliasList_Sort_stable_result (ids ids' : list TabletAlias) :
  ids ≡ₚ ids' →
  sort.Sort (Some <$> ids : TabletAliasList) = sort.Sort (Some <$> ids' : TabletAliasList)
  ∧ (∃ sorted,
       sort.Sort (Some <$> ids : TabletAliasList) = Done (Some <$> sorted)
       ∧ length sorted = length ids
       ∧ sort.Sort (Some <$> sorted : TabletAliasList) = Done (Some <$> sorted))
  ∧ (Sorted aliasLe ids →
     sort.Sort (Some <$> ids : TabletAliasList) = Done (Some <$> ids)).
Proof.
  intros Hperm. rewrite !TabletAliasList_Sort_present.
  assert (∀ l, Sorted aliasLe l → sorted_of lessAlias l = l) as Hfix.
  { intros l Hl. symmetry. by apply sorted_of_lessAlias_unique. }
  split_and!.
  - do 2 f_equal. symmetry. apply sorted_of_lessAlias_unique.
    + by rewrite sorted_of_Permutation.
    + apply sorted_of_lessAlias_Sorted.
  - exists (sorted_of lessAlias ids). split; [done|]. split.
    + by rewrite sorted_of_Permutation.
    + rewrite TabletAliasList_Sort_present, Hfix; [done|].
      apply sorted_of_lessAlias_Sorted.
  - intros Hsorted. by rewrite Hfix.
Qed.

Lemma TabletAliasList_Sort_stable_result_witness :
  sort.Sort (Some <$> [{| Cell := "b"; Uid := 1 |}; {| Cell := "a"; Uid := 5 |}]
             : TabletAliasList)
  = sort.Sort (Some <$> [{| Cell := "a"; Uid := 5 |}; {| Cell := "b"; Uid := 1 |}]
               : TabletAliasList).
Proof.
  apply (TabletAliasList_Sort_stable_result
           [{| Cell := "b"; Uid := 1 |}; {| Cell := "a"; Uid := 5 |}]
           [{| Cell := "a"; Uid := 5 |}; {| Cell := "b"; Uid := 1 |}]).
  apply Permutation_swap.
Defined.

Lemma swap_lookup {A : Type} (l : list A) (i j k : nat) (x y : A) :
  i < length l → j < length l →
  <[j:=x]> (<[i:=y]> l) !! k
  = if decide (k = j) then Some x else if decide (k = i) then Some y else l !! k.
Proof.
  intros Hi Hj. destruct (decide (k = j)) as [->|Hkj].
  - by rewrite list_lookup_insert_eq by (rewrite length_insert; lia).
  - rewrite list_lookup_insert_ne by done. destruct (decide (k = i)) as [->|Hki].
    + by rewrite list_lookup_insert_eq.
    + by rewrite list_lookup_insert_ne.
Qed.

(** X10. [Swap] with two indices in range exchanges the two entries and
    leaves every other entry and the length as they were, so that swapping
    again restores the list; with an index out of range it panics. *)
Theorem TabletAliasList_Swap_spec (tal : TabletAliasList) (i j : nat) :
  (i < length tal → j < length tal →
   ∃ tal',
     TabletAliasList_Swap tal i j = Done tal'
     ∧ length tal' = length tal
     ∧ tal' !! i = tal !! j ∧ tal' !! j = tal !! i
     ∧ (∀ k, k ≠ i → k ≠ j → tal' !! k = tal !! k)
     ∧ TabletAliasList_Swap tal' i j = Done tal)
  ∧ (length tal ≤ i ∨ length tal ≤ j → TabletAliasList_Swap tal i j = Panic).
Proof.
  split.
  - intros Hi Hj.
    destruct (lookup_lt_is_Some_2 _ _ Hi) as [x Hx].
    destruct (lookup_lt_is_Some_2 _ _ Hj) as [y Hy].
    pose proof (λ k, swap_lookup tal i j k x y Hi Hj) as Hlook.
    exists (<[j:=x]> (<[i:=y]> tal)).
    assert (TabletAliasList_Swap tal i j = Done (<[j:=x]> (<[i:=y]> tal))) as Hswap.
    { unfold TabletAliasList_Swap, index. by rewrite Hx, Hy. }
    assert (<[j:=x]> (<[i:=y]> tal) !! i = Some y) as Hi'.
    { rewrite Hlook. destruct (decide (i = j)) as [->|]; [congruence|].
      by rewrite decide_True. }
    assert (<[j:=x]> (<[i:=y]> tal) !! j = Some x) as Hj'.
    { rewrite Hlook. by rewrite decide_True. }
    split_and!; [done|by rewrite !length_insert|congruence|congruence|..].
    + intros k ??. rewrite Hlook. by rewrite !decide_False.
    + unfold TabletAliasList_Swap, index. rewrite Hi', Hj'. cbn. f_equal.
      apply list_eq. intros k.
      rewrite swap_lookup by (by rewrite !length_insert).
      destruct (decide (k = j)) as [->|]; [done|].
      destruct (decide (k = i)) as [->|]; [done|].
      rewrite Hlook. by rewrite !decide_False.
  - unfold TabletAliasList_Swap, index.
    intros [Hi%lookup_ge_None_2|Hj%lookup_ge_None_2].
    + rewrite Hi. by destruct (tal !! j).
    + by rewrite Hj.
Qed.

Lemma TabletAliasList_Swap_spec_witness :
  ∃ tal',
    TabletAliasList_Swap [Some {| Cell := "a"; Uid := 1 |}; None] 0 1 = Done tal'
    ∧ length tal' = 2
    ∧ tal' !! 0 = Some None.
Proof.
  destruct (proj1 (TabletAliasList_Swap_spec
                     [Some {| Cell := "a"; Uid := 1 |}; None] 0 1))
    as (tal' & Hswap & Hlen & H0 & _); [cbn; lia..|].
  exists tal'. split; [exact Hswap|]. split; [exact Hlen|exact H0].
Defined.

End alias_sorting.

(** ** Lists of aliases and of tablets, continued *)

Section collections_more.
Import regexp strconv fmt topoproto.

(** X11. [ToStringSlice] works entry by entry: on two lists put end to end
    it gives the two results put end to end, and on aliases with a
    non-empty cell over [[-_.a-zA-Z0-9]] and a uid of 32 bits
    [ParseTabletAlias] reads every alias back from its entry, in order. *)
Theorem ToStringSlice_parse (ids : list TabletAlias) :
  Forall (λ id, Cell id ≠ "" ∧ all isCellChar (Cell id) = true
                ∧ (0 ≤ Uid id ≤ maxUint32)%Z) ids →
  ParseTabletAlias <$> ToStringSlice (Some <$> ids)
  = (λ id, (Some id, None)) <$> ids
  ∧ (∀ tal1 tal2 : TabletAliasList,
       ToStringSlice (tal1 ++ tal2) = ToStringSlice tal1 ++ ToStringSlice tal2).
Proof.
  intros Hvalid. split.
  - rewrite ToStringSlice_fmap, <-!list_fmap_compose.
    apply Forall_fmap_ext_1. eapply Forall_impl; [exact Hvalid|].
    intros id (Hne & Hcell & Hrange). unfold compose.
    destruct (Sprintf_0d_uint32 (Uid id) Hrange) as (_ & _ & Hv).
    rewrite (ParseTabletAlias_ok _ _ _ (TabletAliasString_matches id Hne Hcell Hrange))
      by (rewrite Hv; lia).
    rewrite Hv. by destruct id.
  - intros tal1 tal2. rewrite !ToStringSlice_fmap. apply fmap_app.
Qed.

Lemma ToStringSlice_parse_witness :
  ParseTabletAlias <$> ToStringSlice
    (Some <$> [{| Cell := "zone1"; Uid := 1 |}; {| Cell := "a-b"; Uid := 20 |}])
  = (λ id, (Some id, None))
      <$> [{| Cell := "zone1"; Uid := 1 |}; {| Cell := "a-b"; Uid := 20 |}].
Proof.
  apply (ToStringSlice_parse
           [{| Cell := "zone1"; Uid := 1 |}; {| Cell := "a-b"; Uid := 20 |}]).
  repeat constructor; try discriminate; unfold maxUint32; cbn; lia.
Defined.

Lemma IsTabletInList_app_false (tablet : ptr Tablet) (l1 l2 : list (ptr Tablet)) :
  IsTabletInList tablet l1 = Done false →
  IsTabletInList tablet (l1 ++ l2) = IsTabletInList tablet l2.
Proof.
  induction l1 as [|tab l1 IH]; [done|]. cbn.
  destruct tablet as [t|]; [|done]. destruct tab as [t'|]; [|done]. cbn.
  destruct (TabletAliasEqual (Alias t) (Alias t')); [done|]. apply IH.
Qed.

Lemma IsTabletInList_app_true (tablet : ptr Tablet) (l1 l2 : list (ptr Tablet)) :
  IsTabletInList tablet l1 = Done true →
  IsTabletInList tablet (l1 ++ l2) = Done true.
Proof.
  induction l1 as [|tab l1 IH]; [done|]. cbn.
  destruct tablet as [t|]; [|done]. destruct tab as [t'|]; [|done]. cbn.
  destruct (TabletAliasEqual (Alias t) (Alias t')); [done|]. apply IH.
Qed.

Lemma IsTabletInList_present (t : Tablet) (l : list Tablet) :
  IsTabletInList (Some t) (Some <$> l)
  = Done (existsb (λ tab, TabletAliasEqual (Alias t) (Alias tab)) l).
Proof.
  induction l as [|tab l IH]; [done|]. cbn.
  destruct (TabletAliasEqual (Alias t) (Alias tab)); [done|]. apply IH.
Qed.

Lemma existsb_alias (t : Tablet) (l : list Tablet) :
  existsb (λ tab, TabletAliasEqual (Alias t) (Alias tab)) l = true
  ↔ ∃ tab, tab ∈ l ∧ Alias tab = Alias t.
Proof.
  rewrite existsb_exists. split.
  - intros (tab & Hin%list_elem_of_In & Heq%TabletAliasEqual_eq). by exists tab.
  - intros (tab & Hin%list_elem_of_In & Heq). exists tab. split; [done|].
    by apply TabletAliasEqual_eq.
Qed.

(** X12. [IsTabletInList] scans from the front and stops at the first
    tablet with the alias looked for: what comes before decides.  A tablet
    is found in every list that holds it; a list that holds a tablet with
    that alias before any nil entry gives true whatever follows; a nil
    entry reached before such a tablet makes it panic; and a nil tablet
    gives false on the empty list and panics on any other. *)
Theorem IsTabletInList_scan (tablet : Tablet) (before : list Tablet)
    (after : list (ptr Tablet)) :
  (tablet ∈ before → IsTabletInList (Some tablet) (Some <$> before) = Done true)
  ∧ ((∃ tab, tab ∈ before ∧ Alias tab = Alias tablet) →
     IsTabletInList (Some tablet) ((Some <$> before) ++ after) = Done true)
  ∧ ((∀ tab, tab ∈ before → Alias tab ≠ Alias tablet) →
     IsTabletInList (Some tablet) ((Some <$> before) ++ after)
     = IsTabletInList (Some tablet) after
     ∧ IsTabletInList (Some tablet) ((Some <$> before) ++ None :: after) = Panic)
  ∧ IsTabletInList None [] = Done false
  ∧ (∀ tab, IsTabletInList None (tab :: after) = Panic).
Proof.
  split_and!; [| | |done|done].
  - intros Hin. rewrite IsTabletInList_present. f_equal.
    apply existsb_alias. by exists tablet.
  - intros Hex. apply IsTabletInList_app_true.
    rewrite IsTabletInList_present. f_equal. by apply existsb_alias.
  - intros Hnone.
    assert (IsTabletInList (Some tablet) (Some <$> before) = Done false) as Hfalse.
    { rewrite IsTabletInList_present. f_equal. apply not_true_is_false.
      intros (tab & Hin & Ha)%existsb_alias. by apply (Hnone tab). }
    split; by rewrite IsTabletInList_app_false.
Qed.

Lemma IsTabletInList_scan_witness :
  IsTabletInList (Some (tabletOf "ks1" ""))
    ((Some <$> [tabletOf "ks2" "db"]) ++ [None]) = Done true
  ∧ IsTabletInList (Some (tabletOf "ks1" "")) ((Some <$> []) ++ None :: []) = Panic.
Proof.
  destruct (IsTabletInList_scan (tabletOf "ks1" "") [tabletOf "ks2" "db"] [None])
    as (_ & Hfound & _).
  destruct (IsTabletInList_scan (tabletOf "ks1" "") [] []) as (_ & _ & Hnil & _).
  split.
  - apply Hfound. exists (tabletOf "ks2" "db"). split; [left|reflexivity].
  - apply Hnil. intros tab Hin. inversion Hin.
Defined.

End collections_more.

(** ** Comma separated lists *)

Section comma_lists.
Import strings topoproto.
Context {unicode : GoUnicode} {enum : TabletTypeEnum}.

Lemma Split_go_cur (sep : ascii) (cur s : string) :
  Split_go sep cur s
  = match Split_go sep EmptyString s with
    | [] => []
    | piece :: rest => (String.rev cur +:+ piece) :: rest
    end.
Proof.
  revert cur. induction s as [|c s IH]; intros cur; cbn.
  { by rewrite str_app_nil_r. }
  destruct (Ascii.eqb c sep).
  - by rewrite str_app_nil_r.
  - rewrite (IH (String c cur)), (IH (String c EmptyString)).
    destruct (Split_go sep EmptyString s) as [|piece rest]; [done|].
    by rewrite rev_cons, str_app_assoc.
Qed.

Lemma Split_cons (c : ascii) (s : string) (sep : ascii) :
  Split (String c s) sep
  = if Ascii.eqb c sep then EmptyString :: Split s sep
    else match Split s sep with
         | [] => []
         | piece :: rest => String c piece :: rest
         end.
Proof.
  unfold Split. cbn. destruct (Ascii.eqb c sep); [done|].
  by rewrite Split_go_cur.
Qed.

Lemma Split_nonempty (s : string) (sep : ascii) : Split s sep ≠ [].
Proof.
  pose proof (Split_go_length sep EmptyString s) as Hlen.
  unfold Split. destruct (Split_go sep EmptyString s); [cbn in Hlen; lia|done].
Qed.

Lemma Join_cons (piece : string) (rest : list string) (sep : ascii) :
  rest ≠ [] → Join (piece :: rest) sep = piece +:+ String sep (Join rest sep).
Proof. by destruct rest. Qed.

(** Joining the pieces with the separator gives the string back. *)
Lemma Join_Split (s : string) (sep : ascii) : Join (Split s sep) sep = s.
Proof.
  induction s as [|c s IH]; [done|].
  rewrite Split_cons. pose proof (Split_nonempty s sep) as Hne.
  destruct (Ascii.eqb_spec c sep) as [->|Hc].
  - by rewrite Join_cons, IH.
  - destruct (Split s sep) as [|piece rest]; [done|].
    destruct rest as [|piece' rest]; cbn in *; [by rewrite IH|].
    rewrite <-IH. done.
Qed.

Lemma Split_freeOf (s : string) (sep : ascii) :
  Forall (λ piece, freeOf sep piece = true) (Split s sep).
Proof.
  induction s as [|c s IH]; [by repeat constructor|].
  rewrite Split_cons. destruct (Ascii.eqb c sep) eqn:Hc; [by constructor|].
  destruct (Split s sep) as [|piece rest]; [done|].
  apply Forall_cons in IH as [Hp Hrest]. constructor; [|done].
  unfold freeOf in *. cbn. by rewrite Hc, Hp.
Qed.

Lemma Split_length (s : string) (sep : ascii) :
  length (Split s sep) = S (countByte sep s).
Proof.
  induction s as [|c s IH]; [done|].
  rewrite Split_cons. cbn [countByte]. destruct (Ascii.eqb c sep); cbn.
  - by rewrite IH.
  - destruct (Split s sep); cbn in *; lia.
Qed.

Lemma Join_Contains (pieces : list string) (sep : ascii) (x : string) :
  x ∈ pieces → Contains (Join pieces sep) x.
Proof.
  induction pieces as [|piece rest IH]; [by intros ?%elem_of_nil|].
  intros [->|Hin]%elem_of_cons.
  - destruct rest; cbn; [exists "", ""; by rewrite str_app_nil_r|].
    apply Contains_here.
  - destruct rest as [|piece' rest]; [by apply elem_of_nil in Hin|].
    rewrite Join_cons by done.
    apply Contains_app_r. apply (Contains_app_r (String sep "")). by apply IH.
Qed.

Lemma size_list_to_set_le (l : list string) :
  size (list_to_set l : gset string) ≤ length l.
Proof.
  induction l as [|x l IH]; [done|]. cbn.
  rewrite size_union_alt, size_singleton.
  assert (size (list_to_set l ∖ {[x]} : gset string) ≤ size (list_to_set l : gset string))
    by (apply subseteq_size, subseteq_difference_l; done).
  lia.
Qed.

(** X13. [ParseTabletSet] of the empty string is the empty set, and of any
    other string it is the set of the pieces between the commas, which is
    not empty: a string with no comma gives the set of that one string.
    Every member is free of commas and is a part of the input as it stands
    (nothing is trimmed), and there is at most one member more than there
    are commas. *)
Theorem ParseTabletSet_spec (tabletListStr : string) :
  ParseTabletSet "" = ∅
  ∧ (tabletListStr ≠ "" →
     (∀ x, x ∈ ParseTabletSet tabletListStr ↔ x ∈ Split tabletListStr ",")
     ∧ ParseTabletSet tabletListStr ≠ ∅
     ∧ (countByte "," tabletListStr = 0 →
        ParseTabletSet tabletListStr = {[tabletListStr]}))
  ∧ (∀ x, x ∈ ParseTabletSet tabletListStr →
       freeOf "," x = true ∧ Contains tabletListStr x)
  ∧ size (ParseTabletSet tabletListStr) ≤ S (countByte "," tabletListStr).
Proof.
  assert (tabletListStr ≠ "" →
          ParseTabletSet tabletListStr = list_to_set (Split tabletListStr ","))
    as Hset.
  { intros Hne. unfold ParseTabletSet. by rewrite (proj2 (isEmpty_false _) Hne). }
  split_and!.
  - done.
  - intros Hne. rewrite (Hset Hne). split_and!.
    + intros x. apply elem_of_list_to_set.
    + pose proof (Split_nonempty tabletListStr ",") as Hpieces.
      destruct (Split tabletListStr ",") as [|piece rest]; [done|].
      intros Hempty. apply (not_elem_of_empty (C:=gset string) piece).
      rewrite <-Hempty. apply elem_of_list_to_set. by left.
    + intros Hcount. pose proof (Split_length tabletListStr ",") as Hlen.
      pose proof (Join_Split tabletListStr ",") as Hjoin.
      rewrite Hcount in Hlen.
      destruct (Split tabletListStr ",") as [|piece [|??]]; try done.
      cbn in Hjoin. subst piece. cbn. apply (right_id_L ∅ (∪)).
  - intros x. destruct (decide (tabletListStr = "")) as [->|Hne].
    { by intros ?%elem_of_empty. }
    rewrite (Hset Hne), elem_of_list_to_set. intros Hin. split.
    + pose proof (Split_freeOf tabletListStr ",") as Hfree.
      rewrite Forall_forall in Hfree. by apply Hfree.
    + rewrite <-(Join_Split tabletListStr ",") at 1. by apply Join_Contains.
  - destruct (decide (tabletListStr = "")) as [->|Hne].
    { change (ParseTabletSet "") with (∅ : gset string). rewrite size_empty. lia. }
    rewrite (Hset Hne), <-Split_length. apply size_list_to_set_le.
Qed.

Lemma ParseTabletTypes_loop_ok (strs : list string) (acc types : list Z) :
  ParseTabletTypes_loop strs acc = (types, None)
  ↔ ∃ more, types = acc ++ more
            ∧ Forall2 (λ typeStr t, TabletType_value !! ToUpper typeStr = Some t)
                strs more.
Proof.
  revert acc. induction strs as [|typeStr strs IH]; intros acc; cbn.
  - split.
    + intros [= <-]. exists []. by rewrite app_nil_r.
    + intros (more & -> & ->%Forall2_nil_inv_l). by rewrite app_nil_r.
  - unfold ParseTabletType.
    destruct (TabletType_value !! ToUpper typeStr) as [t|] eqn:Ht.
    + rewrite IH. split.
      * intros (more & -> & Hall). exists (t :: more).
        rewrite <-app_assoc. split; [done|]. by constructor.
      * intros (more & -> & Hall).
        apply Forall2_cons_inv_l in Hall as (t' & more' & Ht' & Hall & ->).
        exists more'. rewrite <-app_assoc. split; [|done].
        by replace t' with t by congruence.
    + split; [done|]. intros (more & _ & Hall).
      apply Forall2_cons_inv_l in Hall as (t' & more' & Ht' & _). congruence.
Qed.

Lemma ParseTabletTypes_loop_fail (good : list string) (bad : string)
    (rest : list string) (acc : list Z) :
  Forall (λ typeStr, is_Some (TabletType_value !! ToUpper typeStr)) good →
  TabletType_value !! ToUpper bad = None →
  ParseTabletTypes_loop (good ++ bad :: rest) acc
  = ([], Some (errorString ("unknown TabletType " +:+ bad))).
Proof.
  intros Hgood Hbad. revert acc.
  induction Hgood as [|typeStr good [t Ht] _ IH]; intros acc; cbn.
  - unfold ParseTabletType. by rewrite Hbad.
  - unfold ParseTabletType at 1. rewrite Ht. apply IH.
Qed.

(** X14. [ParseTabletTypes] succeeds exactly when every piece between the
    commas is, once upper-cased, a name of [TabletType_value], and it then
    returns the values of the pieces in order, one per piece.  Otherwise it
    stops at the first piece that is no name and returns no list and the
    error of [ParseTabletType] for that piece, whatever follows it. *)
Theorem ParseTabletTypes_spec (param : string) :
  (∀ types : list Z,
     ParseTabletTypes param = (types, None)
     ↔ Forall2 (λ typeStr t, TabletType_value !! ToUpper typeStr = Some t)
         (Split param ",") types)
  ∧ (∀ types : list Z,
       ParseTabletTypes param = (types, None) →
       length types = S (countByte "," param))
  ∧ (∀ (good : list string) (bad : string) (rest : list string),
       Split param "," = good ++ bad :: rest →
       Forall (λ typeStr, is_Some (TabletType_value !! ToUpper typeStr)) good →
       TabletType_value !! ToUpper bad = None →
       ParseTabletTypes param = ([], (ParseTabletType bad).2)
       ∧ (ParseTabletType bad).2
         = Some (errorString ("unknown TabletType " +:+ bad))).
Proof.
  assert (∀ types : list Z,
     ParseTabletTypes param = (types, None)
     ↔ Forall2 (λ typeStr t, TabletType_value !! ToUpper typeStr = Some t)
         (Split param ",") types) as Hiff.
  { intros types. unfold ParseTabletTypes. rewrite ParseTabletTypes_loop_ok.
    split; [by intros (more & -> & ?)|]. intros Hall. by exists types. }
  split_and!.
  - done.
  - intros types Hall%Hiff. apply Forall2_length in Hall.
    by rewrite <-Hall, Split_length.
  - intros good bad rest Hsplit Hgood Hbad. unfold ParseTabletTypes.
    rewrite Hsplit, (ParseTabletTypes_loop_fail good bad rest [] Hgood Hbad).
    unfold ParseTabletType. by rewrite Hbad.
Qed.

End comma_lists.

Lemma ParseTabletSet_spec_witness :
  topoproto.ParseTabletSet "zone1-0000000100" = {["zone1-0000000100"]}.
Proof.
  apply (ParseTabletSet_spec "zone1-0000000100"); [discriminate|reflexivity].
Defined.


Lemma ParseTabletTypes_spec_witness :
  topoproto.ParseTabletTypes (unicode := reference.ascii_only)
    (enum := reference.TabletType) "replica,rdonly"
  = ([2; 3]%Z, None)
  ∧ topoproto.ParseTabletTypes (unicode := reference.ascii_only)
      (enum := reference.TabletType) "replica,bogus,nope"
    = ([], Some (errorString "unknown TabletType bogus")).
Proof.
  destruct (ParseTabletTypes_spec (unicode := reference.ascii_only)
              (enum := reference.TabletType) "replica,rdonly") as (Hok & _).
  destruct (ParseTabletTypes_spec (unicode := reference.ascii_only)
              (enum := reference.TabletType) "replica,bogus,nope") as (_ & _ & Hfail).
  split.
  - apply Hok. repeat constructor.
  - destruct (Hfail ["replica"] "bogus" ["nope"]) as [Hp He].
    + reflexivity.
    + repeat constructor. by eexists.
    + reflexivity.
    + rewrite Hp. exact (f_equal _ He).
Defined.

(** ** Names of tablet types *)

Section type_names_more.
Import strings topoproto.
Context {unicode : GoUnicode} {enum : TabletTypeEnum}.

Lemma upperByte_lowerByte (c : ascii) : upperByte (lowerByte c) = upperByte c.
Proof. by destruct c as [[] [] [] [] [] [] [] []]. Qed.

Lemma upperByte_idemp (c : ascii) : upperByte (upperByte c) = upperByte c.
Proof. by destruct c as [[] [] [] [] [] [] [] []]. Qed.

Lemma upperByte_ascii (c : ascii) :
  (byte c <? 128)%Z = true → (byte (upperByte c) <? 128)%Z = true.
Proof. by destruct c as [[] [] [] [] [] [] [] []]. Qed.

Lemma lowerByte_ascii (c : ascii) :
  (byte c <? 128)%Z = true → (byte (lowerByte c) <? 128)%Z = true.
Proof. by destruct c as [[] [] [] [] [] [] [] []]. Qed.

Lemma upperByte_upper (c : ascii) :
  between "a" "z" c = false → upperByte c = c.
Proof. unfold upperByte. by intros ->. Qed.

Lemma lowerByte_not_lower (c : ascii) :
  between "a" "z" c = false → upperByte (lowerByte c) = c.
Proof. rewrite upperByte_lowerByte. apply upperByte_upper. Qed.

Lemma isASCII_mapBytes (f : ascii → ascii) (s : string) :
  (∀ c, (byte c <? 128)%Z = true → (byte (f c) <? 128)%Z = true) →
  isASCII s = true → isASCII (mapBytes f s) = true.
Proof.
  intros Hf. unfold isASCII. induction s as [|c s IH]; [done|]. cbn.
  intros [Hc Hs]%andb_true_iff. by rewrite (Hf c Hc), IH.
Qed.

Lemma mapBytes_mapBytes (f g : ascii → ascii) (s : string) :
  mapBytes f (mapBytes g s) = mapBytes (λ c, f (g c)) s.
Proof. induction s as [|c s IH]; [done|]. cbn. by rewrite IH. Qed.

Lemma mapBytes_ext (f g : ascii → ascii) (s : string) :
  (∀ c, f c = g c) → mapBytes f s = mapBytes g s.
Proof. intros Hfg. induction s as [|c s IH]; [done|]. cbn. by rewrite Hfg, IH. Qed.

Lemma ToUpper_ToLower (s : string) :
  isASCII s = true → ToUpper (ToLower s) = ToUpper s.
Proof.
  intros Hs. unfold ToUpper, ToLower. rewrite Hs.
  rewrite (isASCII_mapBytes lowerByte s lowerByte_ascii Hs).
  rewrite mapBytes_mapBytes. apply mapBytes_ext, upperByte_lowerByte.
Qed.

Lemma ToUpper_ToUpper (s : string) :
  isASCII s = true → ToUpper (ToUpper s) = ToUpper s.
Proof.
  intros Hs. unfold ToUpper. rewrite Hs.
  rewrite (isASCII_mapBytes upperByte s upperByte_ascii Hs).
  rewrite mapBytes_mapBytes. apply mapBytes_ext, upperByte_idemp.
Qed.

(** X15. On ASCII input [ParseTabletType] does not look at the case of the
    letters: the input, its upper-case form and its lower-case form give the
    same type and fail together (the error message alone keeps the spelling
    of the input). *)
Theorem ParseTabletType_case (param : string) :
  isASCII param = true →
  (ParseTabletType (ToLower param)).1 = (ParseTabletType param).1
  ∧ (ParseTabletType (ToUpper param)).1 = (ParseTabletType param).1
  ∧ ((ParseTabletType (ToLower param)).2 = None ↔ (ParseTabletType param).2 = None)
  ∧ ((ParseTabletType (ToUpper param)).2 = None ↔ (ParseTabletType param).2 = None).
Proof.
  intros Hascii. unfold ParseTabletType.
  rewrite (ToUpper_ToLower param Hascii), (ToUpper_ToUpper param Hascii).
  by destruct (TabletType_value !! ToUpper param).
Qed.

Lemma tabletTypeLowerName_fmap :
  tabletTypeLowerName = ToLower <$> TabletType_name.
Proof.
  unfold tabletTypeLowerName.
  apply (map_fold_weak_ind (λ r m, r = ToLower <$> m)).
  - by rewrite fmap_empty.
  - intros i x m r _ ->. by rewrite fmap_insert.
Qed.

Lemma TabletTypeLString_lookup (tabletType : Z) :
  (∀ name, TabletType_name !! tabletType = Some name →
           TabletTypeLString tabletType = ToLower name)
  ∧ (TabletType_name !! tabletType = None →
     TabletTypeLString tabletType = "unknown").
Proof.
  unfold TabletTypeLString. rewrite tabletTypeLowerName_fmap, lookup_fmap.
  split; by intros; simplify_option_eq.
Qed.

(** X16. [TabletTypeLString] never fails: the table [init] fills holds, for
    every number of [TabletType_name] and for no other, the lower-case form
    of its name, so the function gives that form for a number of the table
    and "unknown" for any other. *)
Theorem TabletTypeLString_spec (tabletType : Z) :
  (∀ name, TabletType_name !! tabletType = Some name →
           TabletTypeLString tabletType = ToLower name)
  ∧ (TabletType_name !! tabletType = None →
     TabletTypeLString tabletType = "unknown")
  ∧ dom tabletTypeLowerName = dom TabletType_name.
Proof.
  unfold TabletTypeLString. rewrite tabletTypeLowerName_fmap, lookup_fmap.
  split_and!.
  - by intros name ->.
  - by intros ->.
  - apply dom_fmap_L.
Qed.

(** X17. Reading back what [TabletTypeLString] writes: for a number whose
    name in [TabletType_name] is an ASCII string with no lower-case letter
    that [TabletType_value] maps back to the number, [ParseTabletType] of
    [TabletTypeLString] of the number is the number, with a nil error. *)
Theorem ParseTabletType_TabletTypeLString (tabletType : Z) (name : string) :
  TabletType_name !! tabletType = Some name →
  TabletType_value !! name = Some tabletType →
  isASCII name = true →
  all (λ c, negb (between "a" "z" c)) name = true →
  ParseTabletType (TabletTypeLString tabletType) = (tabletType, None).
Proof.
  intros Hname Hvalue Hascii Hupper.
  rewrite (proj1 (TabletTypeLString_lookup tabletType) name Hname).
  unfold ParseTabletType. rewrite (ToUpper_ToLower name Hascii).
  assert (ToUpper name = name) as ->.
  { unfold ToUpper. rewrite Hascii. clear -Hupper.
    induction name as [|c name IH]; [done|]. cbn in *.
    apply andb_true_iff in Hupper as [Hc%negb_true_iff Hrest].
    by rewrite (upperByte_upper c Hc), IH. }
  by rewrite Hvalue.
Qed.

Lemma IsTypeInList_elem_of (tabletType : Z) (types : list Z) :
  IsTypeInList tabletType types = true ↔ tabletType ∈ types.
Proof.
  induction types as [|t types IH]; cbn.
  { split; [done|]. by intros ?%elem_of_nil. }
  rewrite elem_of_cons, <-IH. destruct (Z.eqb_spec tabletType t); intuition.
Qed.

(** X18. [IsTypeInList] decides membership: it is true exactly when the
    list holds the type, so that neither the order of the list nor
    repetitions in it matter, and on two lists put end to end it is the
    disjunction of the two answers. *)
Theorem IsTypeInList_spec (tabletType : Z) (types types' : list Z) :
  (IsTypeInList tabletType types = true ↔ tabletType ∈ types)
  ∧ IsTypeInList tabletType (types ++ types')
    = IsTypeInList tabletType types || IsTypeInList tabletType types'
  ∧ ((∀ t, t ∈ types ↔ t ∈ types') →
     IsTypeInList tabletType types = IsTypeInList tabletType types').
Proof.
  split_and!.
  - apply IsTypeInList_elem_of.
  - induction types as [|t types IH]; [done|]. cbn.
    by destruct (tabletType =? t)%Z.
  - intros Hsame. apply eq_true_iff_eq.
    rewrite !IsTypeInList_elem_of. apply Hsame.
Qed.

(** X19. Every type that [IsServingType] accepts is one of
    [AllTabletTypes], whatever numbers the constants of the enumeration
    are. *)
Theorem IsServingType_AllTabletTypes (tabletType : Z) :
  IsServingType tabletType = true →
  IsTypeInList tabletType AllTabletTypes = true.
Proof.
  unfold IsServingType, AllTabletTypes. cbn.
  destruct (Z.eqb_spec tabletType TabletType_PRIMARY); [done|].
  destruct (Z.eqb_spec tabletType TabletType_REPLICA); [done|].
  destruct (Z.eqb_spec tabletType TabletType_RDONLY); [done|].
  destruct (Z.eqb_spec tabletType TabletType_BATCH); [done|].
  destruct (Z.eqb_spec tabletType TabletType_SPARE); [done|].
  destruct (Z.eqb_spec tabletType TabletType_EXPERIMENTAL); [done|].
  done.
Qed.

End type_names_more.

Lemma ParseTabletType_case_witness :
  (topoproto.ParseTabletType (unicode := reference.ascii_only)
     (enum := reference.TabletType) "rEpLiCa").1 = 2%Z.
Proof.
  destruct (ParseTabletType_case (unicode := reference.ascii_only)
              (enum := reference.TabletType) "rEpLiCa" eq_refl) as (Hlower & _).
  rewrite <-Hlower. reflexivity.
Defined.

Lemma TabletTypeLString_spec_witness :
  topoproto.TabletTypeLString (unicode := reference.ascii_only)
    (enum := reference.TabletType) 6 = "backup"
  ∧ topoproto.TabletTypeLString (unicode := reference.ascii_only)
      (enum := reference.TabletType) 99 = "unknown".
Proof.
  destruct (TabletTypeLString_spec (unicode := reference.ascii_only)
              (enum := reference.TabletType) 6) as (Hname & _).
  destruct (TabletTypeLString_spec (unicode := reference.ascii_only)
              (enum := reference.TabletType) 99) as (_ & Hnone & _).
  split.
  - apply (Hname "BACKUP"). reflexivity.
  - apply Hnone. reflexivity.
Defined.

Lemma ParseTabletType_TabletTypeLString_witness :
  topoproto.ParseTabletType (unicode := reference.ascii_only)
    (enum := reference.TabletType)
    (topoproto.TabletTypeLString (unicode := reference.ascii_only)
       (enum := reference.TabletType) 5)
  = (5%Z, None).
Proof.
  apply (ParseTabletType_TabletTypeLString (unicode := reference.ascii_only)
           (enum := reference.TabletType) 5 "EXPERIMENTAL"); reflexivity.
Defined.

Lemma IsTypeInList_spec_witness :
  topoproto.IsTypeInList 2 [1; 2; 3]%Z = topoproto.IsTypeInList 2 [3; 2; 2; 1]%Z.
Proof.
  apply (IsTypeInList_spec 2 [1; 2; 3]%Z [3; 2; 2; 1]%Z).
  intros t. rewrite !elem_of_cons, !elem_of_nil. tauto.
Defined.

Lemma IsServingType_AllTabletTypes_witness :
  topoproto.IsTypeInList 5
    (topoproto.AllTabletTypes (enum := reference.TabletType)) = true.
Proof.
  apply (IsServingType_AllTabletTypes (enum := reference.TabletType) 5). reflexivity.
Defined.

(** ** Lists of type names, continued *)

Section type_lists_more.
Import strings topoproto.
Context {unicode : GoUnicode} {enum : TabletTypeEnum}.

Lemma sorted_of_strings_perm (x y : list string) :
  x ≡ₚ y → sorted_of String.ltb x = sorted_of String.ltb y.
Proof.
  intros Hperm. apply sorted_of_strings_unique.
  - by rewrite sorted_of_Permutation.
  - apply sorted_of_strings_Sorted.
Qed.

Lemma remove_dups_length_le (l : list string) :
  length (remove_dups l) ≤ length l.
Proof.
  induction l as [|x l IH]; [done|]. cbn. case_decide; cbn; lia.
Qed.

(** The loop of [MakeUniqueStringTypeList] appends the lower-case form of
    each name it has not seen, once. *)
Lemma MakeUniqueStringTypeList_loop_news (types : list Z) (strs : list string)
    (seen : gset string) :
  ∃ news : list string,
    MakeUniqueStringTypeList_loop types strs seen = strs ++ (ToLower <$> news)
    ∧ NoDup news
    ∧ ∀ name, name ∈ news ↔ name ∈ TabletType_String <$> types ∧ name ∉ seen.
Proof.
  revert strs seen. induction types as [|t types IH]; intros strs seen; cbn.
  { exists []. rewrite app_nil_r. split; [done|]. split; [constructor|].
    intros name. rewrite !elem_of_nil. tauto. }
  case_decide as Hseen.
  - destruct (IH strs seen) as (news & -> & Hnodup & Hnews).
    exists news. split; [done|]. split; [done|].
    intros name. rewrite Hnews, elem_of_cons. split; [tauto|].
    intros [[->|?] ?]; tauto.
  - destruct (IH (strs ++ [ToLower (TabletType_String t)])
                ({[TabletType_String t]} ∪ seen)) as (news & -> & Hnodup & Hnews).
    exists (TabletType_String t :: news). split; [by rewrite <-app_assoc|].
    split.
    + constructor; [|done]. rewrite Hnews, not_elem_of_union, not_elem_of_singleton.
      tauto.
    + intros name.
      rewrite !elem_of_cons, Hnews, not_elem_of_union, not_elem_of_singleton.
      destruct (decide (name = TabletType_String t)) as [->|]; tauto.
Qed.

Lemma MakeUniqueStringTypeList_news (types : list Z) :
  ∃ news : list string,
    MakeUniqueStringTypeList types = Done (sorted_of String.ltb (ToLower <$> news))
    ∧ news ≡ₚ remove_dups (TabletType_String <$> types).
Proof.
  destruct (MakeUniqueStringTypeList_loop_news types [] ∅)
    as (news & Hloop & Hnodup & Hnews).
  exists news. split.
  - unfold MakeUniqueStringTypeList. by rewrite Strings_sorted_of, Hloop.
  - apply NoDup_Permutation; [done|apply NoDup_remove_dups|].
    intros name. rewrite Hnews, elem_of_remove_dups.
    pose proof (not_elem_of_empty (C:=gset string) name). tauto.
Qed.

(** X20. [MakeUniqueStringTypeList] against [MakeStringTypeList]: both
    return, and the unique list holds the same strings as the plain one,
    one entry for each different name of the input and so never more
    entries than the input has types; when the names of the input are all
    different the two lists are the same list. *)
Theorem MakeUniqueStringTypeList_vs_plain (types : list Z) :
  ∃ unique plain : list string,
    MakeUniqueStringTypeList types = Done unique
    ∧ MakeStringTypeList types = Done plain
    ∧ (∀ s, s ∈ unique ↔ s ∈ plain)
    ∧ length plain = length types
    ∧ length unique = length (remove_dups (TabletType_String <$> types))
    ∧ length unique ≤ length plain
    ∧ (NoDup (TabletType_String <$> types) → unique = plain).
Proof.
  destruct (MakeUniqueStringTypeList_news types) as (news & Hunique & Hnews).
  eexists _, _. split; [exact Hunique|].
  split; [apply MakeStringTypeList_sorted_of|].
  assert (length (sorted_of String.ltb (ToLower <$> news))
          = length (remove_dups (TabletType_String <$> types))) as Hlen.
  { by rewrite sorted_of_Permutation, length_fmap, Hnews. }
  split_and!.
  - intros s. rewrite !sorted_of_Permutation, Hnews, !list_elem_of_fmap.
    split.
    + intros (name & -> & (t & -> & Hin)%elem_of_remove_dups%list_elem_of_fmap).
      by exists t.
    + intros (t & -> & Hin). exists (TabletType_String t). split; [done|].
      apply elem_of_remove_dups, list_elem_of_fmap. by exists t.
  - by rewrite sorted_of_Permutation, length_fmap.
  - done.
  - rewrite Hlen, sorted_of_Permutation, length_fmap.
    rewrite <-(length_fmap TabletType_String types).
    apply remove_dups_length_le.
  - intros Hnodup. apply sorted_of_strings_perm.
    trans (ToLower <$> (TabletType_String <$> types));
      [|by rewrite <-list_fmap_compose].
    apply fmap_Permutation.
    rewrite Hnews. apply NoDup_Permutation; [apply NoDup_remove_dups|done|].
    intros name. apply elem_of_remove_dups.
Qed.

(** X21. The plain list depends only on which types the input holds and
    how often, not on their order; the unique list depends only on which
    names occur: repeating a type, or adding a type whose name is already
    there, changes nothing. *)
Theorem MakeStringTypeList_order (types types' : list Z) :
  (types ≡ₚ types' → MakeStringTypeList types = MakeStringTypeList types')
  ∧ ((∀ name, name ∈ TabletType_String <$> types
              ↔ name ∈ TabletType_String <$> types') →
     MakeUniqueStringTypeList types = MakeUniqueStringTypeList types')
  ∧ MakeUniqueStringTypeList (types ++ types) = MakeUniqueStringTypeList types.
Proof.
  assert (∀ l l' : list Z,
    (∀ name, name ∈ TabletType_String <$> l ↔ name ∈ TabletType_String <$> l') →
    MakeUniqueStringTypeList l = MakeUniqueStringTypeList l') as Hnames.
  { intros l l' Hsame.
    destruct (MakeUniqueStringTypeList_news l) as (news & -> & Hnews).
    destruct (MakeUniqueStringTypeList_news l') as (news' & -> & Hnews').
    f_equal. apply sorted_of_strings_perm, fmap_Permutation.
    rewrite Hnews, Hnews'.
    apply NoDup_Permutation; [apply NoDup_remove_dups..|].
    intros name. rewrite !elem_of_remove_dups. apply Hsame. }
  split_and!.
  - intros Hperm. rewrite !MakeStringTypeList_sorted_of. f_equal.
    apply sorted_of_strings_perm. by apply fmap_Permutation.
  - apply Hnames.
  - apply Hnames. intros name. rewrite fmap_app, elem_of_app. tauto.
Qed.

End type_lists_more.

Lemma MakeUniqueStringTypeList_vs_plain_witness :
  ∃ unique plain : list string,
    topoproto.MakeUniqueStringTypeList (unicode := reference.ascii_only)
      (enum := reference.TabletType) [1; 2; 3]%Z = Done unique
    ∧ topoproto.MakeStringTypeList (unicode := reference.ascii_only)
        (enum := reference.TabletType) [1; 2; 3]%Z = Done plain
    ∧ unique = plain.
Proof.
  destruct (MakeUniqueStringTypeList_vs_plain (unicode := reference.ascii_only)
              (enum := reference.TabletType) [1; 2; 3]%Z)
    as (unique & plain & Hu & Hp & _ & _ & _ & _ & Heq).
  exists unique, plain. split; [exact Hu|]. split; [exact Hp|].
  apply Heq. apply (bool_decide_unpack _). vm_compute. exact I.
Defined.

Lemma MakeStringTypeList_order_witness :
  topoproto.MakeStringTypeList (unicode := reference.ascii_only)
    (enum := reference.TabletType) [3; 1]%Z
  = topoproto.MakeStringTypeList (unicode := reference.ascii_only)
      (enum := reference.TabletType) [1; 3]%Z.
Proof.
  exact (proj1 (MakeStringTypeList_order (unicode := reference.ascii_only)
                  (enum := reference.TabletType) [3; 1]%Z [1; 3]%Z)
           (Permutation_swap 1%Z 3%Z [])).
Defined.

(** ** Database names *)

Section database_names.
Import topoproto.

(** X22. [TabletDbName] and [TabletIsAssigned]: the name returned is empty
    only for a tablet with neither override nor keyspace, so an assigned
    tablet always has a non-empty database name; two tablets without
    override have the same name only if they have the same keyspace; and
    on nil [TabletIsAssigned] is false where [TabletDbName] panics. *)
Theorem TabletDbName_assigned (tablet tablet' : Tablet) :
  (TabletIsAssigned (Some tablet) = true ↔ Keyspace tablet ≠ "" ∧ Shard tablet ≠ "")
  ∧ (∃ name, TabletDbName (Some tablet) = Done name
             ∧ (name = "" ↔ DbNameOverride tablet = "" ∧ Keyspace tablet = "")
             ∧ (TabletIsAssigned (Some tablet) = true → name ≠ ""))
  ∧ (DbNameOverride tablet = "" → DbNameOverride tablet' = "" →
     TabletDbName (Some tablet) = TabletDbName (Some tablet') →
     Keyspace tablet = Keyspace tablet')
  ∧ TabletIsAssigned None = false
  ∧ TabletDbName None = Panic.
Proof.
  assert (TabletIsAssigned (Some tablet) = true
          ↔ Keyspace tablet ≠ "" ∧ Shard tablet ≠ "") as Hassigned.
  { cbn. rewrite andb_true_iff, !negb_true_iff, !isEmpty_false. done. }
  split_and!; [done| | |done|done].
  - unfold TabletDbName. cbn.
    destruct (DbNameOverride tablet) as [|c override] eqn:Hov; cbn.
    + destruct (Keyspace tablet) as [|k keyspace] eqn:Hks; cbn.
      * exists "". split; [done|]. split; [done|].
        intros Ha. first [discriminate Ha|by apply Hassigned in Ha as [? _]].
      * eexists. split; [done|]. split; [|done]. split; [done|]. by intros [_ ?].
    + eexists. split; [done|]. split; [|done]. split; [done|]. by intros [? _].
  - unfold TabletDbName. cbn. intros -> ->. cbn.
    destruct (Keyspace tablet) as [|k keyspace], (Keyspace tablet') as [|k' keyspace'];
      cbn; try done.
    intros Heq.
    assert (VtDbPrefix +:+ String k keyspace = VtDbPrefix +:+ String k' keyspace')
      as Heq' by congruence.
    by apply (inj (String.app VtDbPrefix)) in Heq'.
Qed.

Lemma TabletDbName_assigned_witness :
  ∃ name, TabletDbName (Some (tabletOf "ks1" "")) = Done name ∧ name ≠ "".
Proof.
  destruct (TabletDbName_assigned (tabletOf "ks1" "") (tabletOf "ks1" ""))
    as (_ & (name & Hname & _ & Hassigned) & _).
  exists name. split; [exact Hname|]. apply Hassigned. reflexivity.
Defined.

End database_names.

(** ** Writing aliases and sets by hand *)

Section written_forms.
Import regexp strconv strings topoproto.

(** X23. Zeros in front of the uid do not matter to [ParseTabletAlias], and
    neither does the number of digits: a legal cell, a dash, any number of
    zeros and then digits denoting a number of 32 bits parse to that cell
    and that number. *)
Theorem ParseTabletAlias_leading_zeros (cell uid : string) (zeros : nat) :
  cell ≠ "" → all isCellChar cell = true →
  uid ≠ "" → all isDigit uid = true → (decimalValue uid ≤ maxUint32)%Z →
  ParseTabletAlias (cell +:+ "-" +:+ repeatByte "0" zeros +:+ uid)
  = (Some {| Cell := cell; Uid := decimalValue uid |}, None)
  ∧ ParseTabletAlias (cell +:+ "-" +:+ repeatByte "0" zeros +:+ uid)
    = ParseTabletAlias (cell +:+ "-" +:+ uid).
Proof.
  intros Hcell Hlegal Huid Hdigits Hfit.
  assert (decimalValue (repeatByte "0" zeros +:+ uid) = decimalValue uid) as Hval.
  { unfold decimalValue. by rewrite valueFrom_app, valueFrom_zeros. }
  assert (MatchesAlias (cell +:+ "-" +:+ repeatByte "0" zeros +:+ uid) cell
            (repeatByte "0" zeros +:+ uid)) as Hm.
  { unfold MatchesAlias. split_and!; try done.
    - by intros [_ ?]%str_app_empty.
    - by rewrite all_app, all_repeatByte. }
  assert (MatchesAlias (cell +:+ "-" +:+ uid) cell uid) as Hm' by done.
  rewrite (ParseTabletAlias_ok _ _ _ Hm) by (by rewrite Hval).
  rewrite (ParseTabletAlias_ok _ _ _ Hm') by done.
  by rewrite Hval.
Qed.

Lemma ParseTabletAlias_leading_zeros_witness :
  ParseTabletAlias ("zone1" +:+ "-" +:+ repeatByte "0" 15 +:+ "100")
  = ParseTabletAlias ("zone1" +:+ "-" +:+ "100").
Proof.
  apply (ParseTabletAlias_leading_zeros "zone1" "100" 15);
    [discriminate|reflexivity|discriminate|reflexivity|].
  vm_compute. discriminate.
Defined.

Lemma Split_free (piece : string) (sep : ascii) :
  freeOf sep piece = true → Split piece sep = [piece].
Proof.
  induction piece as [|c piece IH]; [done|].
  intros Hfree. unfold freeOf in *. cbn [all] in Hfree.
  apply andb_true_iff in Hfree as [Hc%negb_true_iff Hfree].
  rewrite Split_cons, Hc, IH; done.
Qed.

Lemma Split_free_sep (piece : string) (sep : ascii) (s : string) :
  freeOf sep piece = true →
  Split (piece +:+ String sep s) sep = piece :: Split s sep.
Proof.
  induction piece as [|c piece IH].
  - intros _. rewrite str_app_nil_l, Split_cons. by rewrite Ascii.eqb_refl.
  - intros Hfree. unfold freeOf in *. cbn [all] in Hfree.
    apply andb_true_iff in Hfree as [Hc%negb_true_iff Hfree].
    rewrite str_app_cons, Split_cons, Hc, IH; done.
Qed.

(** Splitting what was joined gives the pieces back, when none of them
    holds the separator. *)
Lemma Split_Join (pieces : list string) (sep : ascii) :
  pieces ≠ [] → Forall (λ piece, freeOf sep piece = true) pieces →
  Split (Join pieces sep) sep = pieces.
Proof.
  intros Hne Hfree. induction Hfree as [|piece rest Hp Hrest IH]; [done|].
  destruct rest as [|piece' rest].
  - by apply Split_free.
  - rewrite Join_cons by done. rewrite Split_free_sep by done.
    rewrite IH; done.
Qed.

(** X24. Every non-empty list of comma-free names, the single empty name
    apart, can be written for [ParseTabletSet]: joined with commas it
    parses to the set of the names.  The one empty name is written as the
    empty string, which parses to the empty set. *)
Theorem ParseTabletSet_Join (names : list string) :
  names ≠ [] → names ≠ [""] →
  Forall (λ name, freeOf "," name = true) names →
  ParseTabletSet (Join names ",") = list_to_set names
  ∧ ParseTabletSet (Join [""] ",") = ∅.
Proof.
  intros Hne Hne' Hfree. split; [|done].
  unfold ParseTabletSet.
  assert (Join names "," ≠ "") as Hjoin.
  { destruct names as [|name [|name' rest]]; [done| |].
    - cbn. by intros ->.
    - rewrite Join_cons by done. by intros [_ ?]%str_app_empty. }
  rewrite (proj2 (isEmpty_false _) Hjoin). by rewrite Split_Join.
Qed.

Lemma ParseTabletSet_Join_witness :
  ParseTabletSet (Join ["zone1-0000000100"; "zone2-0000000200"] ",")
  = list_to_set ["zone1-0000000100"; "zone2-0000000200"].
Proof.
  apply (ParseTabletSet_Join ["zone1-0000000100"; "zone2-0000000200"]);
    [discriminate|discriminate|].
  repeat constructor.
Defined.

End written_forms.
